(** * The poll store of the voting backend (src/index.js)

    A shallow embedding of the Express handlers of [src/index.js] and
    of the in-memory object [polls] they share, followed by the
    properties of the poll life cycle and of vote recording.

    Conventions of the embedding:
    - a JavaScript string is a Rocq [string] holding its UTF-8 bytes
      (the encoding in which request bodies and URLs arrive);
    - a value read from a parsed JSON body is a [jsval]; a JSON number is
      the rational value of the double it denotes, or an infinity (a
      literal such as 1e999 parses to Infinity; JSON has no NaN);
    - vote counts are integers ([Z]): the doubles of the source stay
      exact below 2^53 votes;
    - the clock and the random generator are inputs of [createPoll],
      the connection address [req.ip] is an input of [vote];
    - [polls] is an object literal: a key that it does not own is
      looked up in [Object.prototype];
    - a handler runs to completion before the next request is handled;
      it maps the store to a new store and a response.  The [error]
      text that a 500 response copies from the exception is left out
      of the response, and [toFixed] is kept as an expression;
    - the property order of [polls], which GET /api/polls shows, is
      kept beside the store ([listed]); the route GET / answers with a
      constant and is not part of the embedding; Express itself is
      taken to behave the same whatever the handlers have stored. *)

From Stdlib Require Import ZArith QArith Qcanon Ascii String DecimalString DecimalPos
  DecimalN Lia.
From stdpp Require Import gmap strings list fin_maps.

Local Open Scope string_scope.
Local Open Scope list_scope.
Local Open Scope Z_scope.

(** ** JavaScript values read from a request *)

Module Js.

(** A number that [JSON.parse] can produce. *)
Inductive number :=
| Fin (q : Q)
| PosInf
| NegInf.

(** A field of a parsed JSON body; [JUndefined] is an absent field. *)
#[local] Unset Elimination Schemes.
Inductive jsval :=
| JUndefined
| JNull
| JBool (b : bool)
| JNum (n : number)
| JStr (s : string)
| JArr (elems : list jsval)
| JObj (fields : list (string * jsval)).
#[local] Set Elimination Schemes.

Definition is_zero (n : number) : bool :=
  match n with
  | Fin q => Qeq_bool q 0
  | _ => false
  end.

(** ToBoolean: what [!v] and [v || w] test. *)
Definition truthy (v : jsval) : bool :=
  match v with
  | JUndefined | JNull => false
  | JBool b => b
  | JNum n => negb (is_zero n)
  | JStr s => negb (String.eqb s "")
  | JArr _ | JObj _ => true
  end.

(** [v || w] *)
Definition or_else (v w : jsval) : jsval := if truthy v then v else w.

(** [n < 0] *)
Definition lt_zero (n : number) : bool :=
  match n with
  | Fin q => negb (Qle_bool 0 q)
  | PosInf => false
  | NegInf => true
  end.

(** [n >= len] for an array length [len] *)
Definition ge_length (n : number) (len : nat) : bool :=
  match n with
  | Fin q => Qle_bool (inject_Z (Z.of_nat len)) q
  | PosInf => true
  | NegInf => false
  end.

Definition number_eqb (m n : number) : bool :=
  match m, n with
  | Fin p, Fin q => Qeq_bool p q
  | PosInf, PosInf | NegInf, NegInf => true
  | _, _ => false
  end.

(** SameValueZero, the comparison of [Set.prototype.has] and [add].
    An array or an object is compared by reference; each request
    parses its body into new objects, so one that is already in a
    set is never the one a later request carries. *)
Definition same_value_zero (v w : jsval) : bool :=
  match v, w with
  | JUndefined, JUndefined | JNull, JNull => true
  | JBool a, JBool b => Bool.eqb a b
  | JNum m, JNum n => number_eqb m n
  | JStr s, JStr t => String.eqb s t
  | _, _ => false
  end.

(** The property key that a number selects in an array: an index when
    the number is a non-negative integer, a named property otherwise. *)
Inductive key :=
| Index (i : nat)
| Name (n : number).

Definition array_key (n : number) : key :=
  match n with
  | Fin q =>
      let r := Qred q in
      if Pos.eqb (Qden r) 1 && (0 <=? Qnum r)
      then Index (Z.to_nat (Qnum r)) else Name (Fin r)
  | _ => Name n
  end.

(** *** [String.prototype.trim] *)

Definition byte (c : ascii) : N := N_of_ascii c.

(** White space and line terminators of one UTF-8 byte:
    U+0009 to U+000D and U+0020. *)
Definition ws1 (c : ascii) : bool :=
  ((9 <=? byte c) && (byte c <=? 13) || (byte c =? 32))%N.

(** U+00A0, encoded C2 A0. *)
Definition ws2 (c1 c2 : ascii) : bool :=
  ((byte c1 =? 194) && (byte c2 =? 160))%N.

(** U+1680; U+2000 to U+200A, U+2028, U+2029, U+202F; U+205F; U+3000;
    U+FEFF. *)
Definition ws3 (c1 c2 c3 : ascii) : bool :=
  let '(a, b, c) := (byte c1, byte c2, byte c3) in
  ((a =? 225) && (b =? 154) && (c =? 128)
   || (a =? 226) && (b =? 128)
      && ((128 <=? c) && (c <=? 138) || (c =? 168) || (c =? 169) || (c =? 175))
   || (a =? 226) && (b =? 129) && (c =? 159)
   || (a =? 227) && (b =? 128) && (c =? 128)
   || (a =? 239) && (b =? 187) && (c =? 191))%N.

Fixpoint trimStart (s : string) : string :=
  match s with
  | EmptyString => EmptyString
  | String c1 r1 =>
      if ws1 c1 then trimStart r1 else
      match r1 with
      | String c2 r2 =>
          if ws2 c1 c2 then trimStart r2 else
          match r2 with
          | String c3 r3 => if ws3 c1 c2 c3 then trimStart r3 else s
          | EmptyString => s
          end
      | EmptyString => s
      end
  end.

(** [trimEnd] on the reversed string: the bytes of a character come
    last byte first. *)
Fixpoint trimStart_rev (s : string) : string :=
  match s with
  | EmptyString => EmptyString
  | String c1 r1 =>
      if ws1 c1 then trimStart_rev r1 else
      match r1 with
      | String c2 r2 =>
          if ws2 c2 c1 then trimStart_rev r2 else
          match r2 with
          | String c3 r3 => if ws3 c3 c2 c1 then trimStart_rev r3 else s
          | EmptyString => s
          end
      | EmptyString => s
      end
  end.

Definition trimEnd (s : string) : string :=
  String.rev (trimStart_rev (String.rev s)).

Definition trim (s : string) : string := trimEnd (trimStart s).

(** The text of a non-negative integer, as string concatenation
    prints it. *)
Definition number_to_string (n : N) : string :=
  NilZero.string_of_uint (N.to_uint n).

End Js.

Import Js.

(** ** The poll store *)

(** [status: 'active'] or ['closed']. *)
Inductive Status := active | closed.

(** An element of the [votes] array: a count, [NaN], or a hole (an
    index below [length] that was never written). *)
Inductive entry :=
| Num (n : Z)
| NaN
| Hole.

(** A poll record, as [createPoll] builds it.  [votes_named] lists the
    properties of the array [votes] that are not indices (all hold
    [NaN]); [voters] is the [Set], in insertion order. *)
Record Poll := {
  id : string;
  question : string;
  options : list string;
  votes : list entry;
  votes_named : list number;
  status : Status;
  createdAt : string;
  voters : list jsval
}.

(** The own properties of [Object.prototype], which the object
    literal [polls = {}] inherits: each is a function, [__proto__]
    reads as [Object.prototype] itself. *)
Definition object_prototype_keys : list string :=
  [ "constructor"; "__defineGetter__"; "__defineSetter__"; "hasOwnProperty";
    "__lookupGetter__"; "__lookupSetter__"; "isPrototypeOf";
    "propertyIsEnumerable"; "toString"; "valueOf"; "__proto__";
    "toLocaleString" ].

(** The state the handlers share: the own properties of [polls], and
    the inherited objects on which a handler has set [status]. *)
Record Store := {
  polls : gmap string Poll;
  builtins_closed : gset string
}.

Definition empty_store : Store := {| polls := ∅; builtins_closed := ∅ |}.

(** What [polls[pollId]] evaluates to when it is truthy. *)
Inductive PollRef :=
| Own (p : Poll)
| Inherited (key : string).

(** [poll.status] of an inherited object: its own [status], or the one
    of [Object.prototype]; [None] is [undefined]. *)
Definition inherited_status (s : Store) (key : string) : option Status :=
  if bool_decide (key ∈ builtins_closed s) || bool_decide ("__proto__" ∈ builtins_closed s)
  then Some closed else None.

Definition ref_status (s : Store) (r : PollRef) : option Status :=
  match r with
  | Own p => Some (status p)
  | Inherited key => inherited_status s key
  end.

Definition is_closed (st : option Status) : bool :=
  match st with
  | Some closed => true
  | _ => false
  end.

(** ** Responses *)

(** The [poll] object of a GET response; [None] is a field that is
    [undefined] and so left out of the JSON. *)
Record PollView := {
  view_id : option string;
  view_question : option string;
  view_options : option (list string);
  view_status : option Status;
  view_createdAt : option string
}.

(** The [percentage] of a result line: the number 0, or the string
    [((v / totalVotes) * 100).toFixed(1)], kept as the operands of the
    floating-point expression. *)
Inductive Percentage :=
| PercentZero
| ToFixed1 (v : option entry) (totalVotes : Z).

Record ResultLine := {
  line_option : string;
  line_votes : option entry;
  line_percentage : Percentage
}.

Inductive Response :=
| Failure (code : Z) (message : string)
| PollCreated (pollId : string) (q : string) (opts : list string) (st : Status)
| PollDetails (view : PollView)
| VoteRecorded (pollId : string) (opt : option string)
| PollResults (pollId : string) (q : string) (st : Status) (totalVotes : entry)
    (results : list ResultLine) (created : string)
| PollClosed (pollId : string) (st : Status)
| PollDeleted (pollId : string).

(** The error kinds of the specification, as the responses that carry
    them. *)
Definition NotFoundError : Response := Failure 404 "Poll not found".
Definition ClosedError : Response :=
  Failure 400 "This poll is closed. Voting is not allowed.".
Definition InvalidOptionIndex : Response := Failure 400 "Invalid option index".
Definition DuplicateVoteError : Response :=
  Failure 400 "You have already voted in this poll".
Definition AlreadyClosedError : Response := Failure 400 "Poll is already closed".
Definition ServerError : Response := Failure 500 "Server error".

(** A validation error is a 400 response of [createPoll], or the one
    of [vote] about the option index. *)
Definition ValidationError (r : Response) : Prop :=
  r = Failure 400 "Question is required"
  ∨ r = Failure 400 "At least 2 options are required"
  ∨ r = Failure 400 "At least 2 non-empty options are required"
  ∨ r = InvalidOptionIndex.

(** ** Helpers of the source *)

(** ['poll_' + Date.now() + '_' + Math.random().toString(36).substr(2, 9)];
    [now] is the clock reading and [suffix] the text drawn from the
    random generator. *)
Definition generatePollId (now : N) (suffix : string) : string :=
  "poll_" +:+ number_to_string now +:+ "_" +:+ suffix.

(** [polls[pollId]]: an own property, else one inherited from
    [Object.prototype], else [undefined]. *)
Definition polls_get (s : Store) (pollId : string) : option PollRef :=
  match polls s !! pollId with
  | Some p => Some (Own p)
  | None =>
      if bool_decide (pollId ∈ object_prototype_keys) then Some (Inherited pollId)
      else None
  end.

(** [getPollOrError]: every value that [polls_get] finds is an object,
    hence truthy. *)
Definition getPollOrError (s : Store) (pollId : string) : string + PollRef :=
  match polls_get s pollId with
  | None => inl "Poll not found"
  | Some r => inr r
  end.

(** [options.filter(opt => opt.trim())]: the elements whose trimmed
    text is not empty, themselves untrimmed; [None] when an element is
    not a string, where the call of [trim] throws a TypeError. *)
Fixpoint filter_trim (opts : list jsval) : option (list string) :=
  match opts with
  | [] => Some []
  | JStr opt :: rest =>
      match filter_trim rest with
      | Some kept => Some (if truthy (JStr (trim opt)) then opt :: kept else kept)
      | None => None
      end
  | _ :: _ => None
  end.

(** [voterId || req.ip] *)
Definition uniqueVoterId (voterId : jsval) (ip : string) : jsval :=
  or_else voterId (JStr ip).

(** [Set.prototype.has] and [Set.prototype.add] *)
Definition voters_has (vs : list jsval) (v : jsval) : bool :=
  existsb (same_value_zero v) vs.

Definition voters_add (vs : list jsval) (v : jsval) : list jsval :=
  if voters_has vs v then vs else vs ++ [v].

(** [a[k]] for an index [k]: a hole and an index past the end both read
    as [undefined]. *)
Definition array_get (a : list entry) (i : nat) : option entry :=
  match a !! i with
  | Some Hole | None => None
  | Some e => Some e
  end.

(** [x + 1] for the value read: [undefined + 1] and [NaN + 1] are
    [NaN]. *)
Definition increment (e : option entry) : entry :=
  match e with
  | Some (Num n) => Num (n + 1)
  | _ => NaN
  end.

(** [a[i]++] for an index [i]: in range the element is replaced; past
    the end the array grows to [i + 1] elements, holes in between. *)
Definition increment_at (a : list entry) (i : nat) : list entry :=
  if (i <? length a)%nat then <[i := increment (array_get a i)]> a
  else a ++ replicate (i - length a) Hole ++ [NaN].

(** [a[k]++] for a key [k] that is not an index: the property [k] is
    created, or kept, with the value [NaN]. *)
Definition increment_named (names : list number) (k : number) : list number :=
  if existsb (number_eqb k) names then names else names ++ [k].

(** [poll.votes.reduce((a, b) => a + b, 0)]: holes are skipped. *)
Definition add_entry (a b : entry) : entry :=
  match b with
  | Hole => a
  | NaN => NaN
  | Num n => match a with Num m => Num (m + n) | _ => NaN end
  end.

Definition totalVotes (a : list entry) : entry := fold_left add_entry a (Num 0).

(** The poll after [poll.votes[optionIndex]++; poll.voters.add(uid)]. *)
Definition record_vote (poll : Poll) (optionIndex : number) (uid : jsval) : Poll :=
  {| id := id poll;
     question := question poll;
     options := options poll;
     votes := match array_key optionIndex with
              | Index i => increment_at (votes poll) i
              | Name _ => votes poll
              end;
     votes_named := match array_key optionIndex with
                    | Index _ => votes_named poll
                    | Name k => increment_named (votes_named poll) k
                    end;
     status := status poll;
     createdAt := createdAt poll;
     voters := voters_add (voters poll) uid |}.

(** [poll.options[optionIndex]] *)
Definition option_at (poll : Poll) (optionIndex : number) : option string :=
  match array_key optionIndex with
  | Index i => options poll !! i
  | Name _ => None
  end.

(** The poll after [poll.status = 'closed']. *)
Definition set_closed (poll : Poll) : Poll :=
  {| id := id poll;
     question := question poll;
     options := options poll;
     votes := votes poll;
     votes_named := votes_named poll;
     status := closed;
     createdAt := createdAt poll;
     voters := voters poll |}.

Definition with_polls (s : Store) (m : gmap string Poll) : Store :=
  {| polls := m; builtins_closed := builtins_closed s |}.

(** The object literal that [createPoll] stores. *)
Definition new_poll (pollId text : string) (cleanedOptions : list string)
    (iso : string) : Poll :=
  {| id := pollId;
     question := text;
     options := cleanedOptions;
     votes := map (λ _, Num 0) cleanedOptions;
     votes_named := [];
     status := active;
     createdAt := iso;
     voters := [] |}.

(** ** The handlers *)

(** POST /api/polls/create.  [now] and [suffix] are what
    [generatePollId] reads from the clock and the random generator,
    [iso] is [new Date().toISOString()].  A truthy [question] that is
    not a string has no [trim] method: the call throws, and the
    handler answers 500. *)
Definition createPoll (q opts : jsval) (now : N) (suffix iso : string)
    (s : Store) : Store * Response :=
  if negb (truthy q) then (s, Failure 400 "Question is required") else
  match q with
  | JStr text =>
      if negb (truthy (JStr (trim text)))
      then (s, Failure 400 "Question is required") else
      match opts with
      | JArr elems =>
          if (length elems <? 2)%nat
          then (s, Failure 400 "At least 2 options are required") else
          match filter_trim elems with
          | None => (s, ServerError)
          | Some cleanedOptions =>
              if (length cleanedOptions <? 2)%nat
              then (s, Failure 400 "At least 2 non-empty options are required")
              else
                let pollId := generatePollId now suffix in
                let poll := new_poll pollId (trim text) cleanedOptions iso in
                (with_polls s (<[pollId := poll]> (polls s)),
                 PollCreated pollId (question poll) (options poll) (status poll))
          end
      | _ => (s, Failure 400 "At least 2 options are required")
      end
  | _ => (s, ServerError)
  end.

(** GET /api/polls/:pollId *)
Definition getPoll (pollId : string) (s : Store) : Store * Response :=
  match getPollOrError s pollId with
  | inl message => (s, Failure 404 message)
  | inr (Own poll) =>
      (s, PollDetails {| view_id := Some (id poll);
                         view_question := Some (question poll);
                         view_options := Some (options poll);
                         view_status := Some (status poll);
                         view_createdAt := Some (createdAt poll) |})
  | inr (Inherited key) =>
      (s, PollDetails {| view_id := None;
                         view_question := None;
                         view_options := None;
                         view_status := inherited_status s key;
                         view_createdAt := None |})
  end.

(** POST /api/polls/:pollId/vote.  On an inherited object
    [poll.options] is [undefined]: once [optionIndex] has passed the
    first two tests, reading [length] throws. *)
Definition vote (pollId : string) (optionIndex voterId : jsval) (ip : string)
    (s : Store) : Store * Response :=
  match getPollOrError s pollId with
  | inl message => (s, Failure 404 message)
  | inr r =>
      if is_closed (ref_status s r) then (s, ClosedError) else
      match optionIndex with
      | JNum n =>
          if lt_zero n then (s, InvalidOptionIndex) else
          match r with
          | Inherited _ => (s, ServerError)
          | Own poll =>
              if ge_length n (length (options poll))
              then (s, InvalidOptionIndex) else
              let uid := uniqueVoterId voterId ip in
              if voters_has (voters poll) uid then (s, DuplicateVoteError)
              else
                (with_polls s (<[pollId := record_vote poll n uid]> (polls s)),
                 VoteRecorded pollId (option_at poll n))
          end
      | _ => (s, InvalidOptionIndex)
      end
  end.

(** [totalVotes > 0] *)
Definition positive_total (t : entry) : option Z :=
  match t with
  | Num n => if 0 <? n then Some n else None
  | _ => None
  end.

Definition result_line (poll : Poll) (total : entry) (index : nat)
    (opt : string) : ResultLine :=
  {| line_option := opt;
     line_votes := array_get (votes poll) index;
     line_percentage :=
       match positive_total total with
       | Some t => ToFixed1 (array_get (votes poll) index) t
       | None => PercentZero
       end |}.

(** GET /api/polls/:pollId/results.  On an inherited object
    [poll.votes] is [undefined] and [reduce] throws. *)
Definition getResults (pollId : string) (s : Store) : Store * Response :=
  match getPollOrError s pollId with
  | inl message => (s, Failure 404 message)
  | inr (Inherited _) => (s, ServerError)
  | inr (Own poll) =>
      let total := totalVotes (votes poll) in
      (s, PollResults pollId (question poll) (status poll) total
            (imap (result_line poll total) (options poll)) (createdAt poll))
  end.

(** PUT /api/polls/:pollId/close *)
Definition closePoll (pollId : string) (s : Store) : Store * Response :=
  match getPollOrError s pollId with
  | inl message => (s, Failure 404 message)
  | inr r =>
      if is_closed (ref_status s r) then (s, AlreadyClosedError) else
      match r with
      | Own poll =>
          (with_polls s (<[pollId := set_closed poll]> (polls s)),
           PollClosed pollId closed)
      | Inherited key =>
          ({| polls := polls s;
              builtins_closed := {[key]} ∪ builtins_closed s |},
           PollClosed pollId closed)
      end
  end.

(** DELETE /api/polls/:pollId.  [delete polls[pollId]] removes an own
    property and leaves an inherited one in place. *)
Definition deletePoll (pollId : string) (s : Store) : Store * Response :=
  match getPollOrError s pollId with
  | inl message => (s, Failure 404 message)
  | inr _ => (with_polls s (delete pollId (polls s)), PollDeleted pollId)
  end.

(** ** Requests and runs *)

Inductive Request :=
| Create (q opts : jsval) (now : N) (suffix iso : string)
| Get (pollId : string)
| Vote (pollId : string) (optionIndex voterId : jsval) (ip : string)
| Results (pollId : string)
| Close (pollId : string)
| Delete (pollId : string).

Definition handle (r : Request) (s : Store) : Store * Response :=
  match r with
  | Create q opts now suffix iso => createPoll q opts now suffix iso s
  | Get pollId => getPoll pollId s
  | Vote pollId optionIndex voterId ip => vote pollId optionIndex voterId ip s
  | Results pollId => getResults pollId s
  | Close pollId => closePoll pollId s
  | Delete pollId => deletePoll pollId s
  end.

(** The store after a sequence of requests, handled one at a time. *)
Definition run (rs : list Request) (s : Store) : Store :=
  fold_left (λ st r, (handle r st).1) rs s.

(** The states the server can be in when every request it has handled
    satisfies [ok]. *)
Inductive reachable_by (ok : Request → Prop) : Store → Prop :=
| reachable_start : reachable_by ok empty_store
| reachable_step r s :
    ok r → reachable_by ok s → reachable_by ok (handle r s).1.

(** The states the server can be in. *)
Definition reachable : Store → Prop := reachable_by (λ _, True).

(** The identifier under which a request stores a new poll, when it
    is a [Create]. *)
Definition created_id (r : Request) : option string :=
  match r with
  | Create _ _ now suffix _ => Some (generatePollId now suffix)
  | _ => None
  end.

(** ** What one request does to one poll *)

(** [poll_change s pollId r after]: the ways in which request [r],
    handled in store [s], leaves [after] under the key [pollId]. *)
Inductive poll_change (s : Store) (pollId : string) :
    Request → option Poll → Prop :=
| change_none r :
    poll_change s pollId r (polls s !! pollId)
| change_close poll :
    polls s !! pollId = Some poll →
    status poll = active →
    poll_change s pollId (Close pollId) (Some (set_closed poll))
| change_vote poll n voterId ip :
    polls s !! pollId = Some poll →
    status poll = active →
    lt_zero n = false →
    ge_length n (length (options poll)) = false →
    voters_has (voters poll) (uniqueVoterId voterId ip) = false →
    poll_change s pollId (Vote pollId (JNum n) voterId ip)
      (Some (record_vote poll n (uniqueVoterId voterId ip)))
| change_delete :
    poll_change s pollId (Delete pollId) None
| change_create text elems now suffix iso cleanedOptions :
    pollId = generatePollId now suffix →
    filter_trim elems = Some cleanedOptions →
    (2 ≤ length cleanedOptions)%nat →
    truthy (JStr (trim text)) = true →
    poll_change s pollId (Create (JStr text) (JArr elems) now suffix iso)
      (Some (new_poll pollId (trim text) cleanedOptions iso)).

(** ** Invariants of the stored polls *)

Definition is_count (e : entry) : Prop := ∃ n, e = Num n ∧ 0 ≤ n.

(** What holds of the poll stored under [pollId] in every state the
    server can be in. *)
Record well_formed (pollId : string) (poll : Poll) : Prop := {
  wf_id : id poll = pollId;
  wf_key : ∃ now suffix, pollId = generatePollId now suffix;
  wf_length : length (votes poll) = length (options poll);
  wf_counts : Forall is_count (votes poll);
  wf_options : (2 ≤ length (options poll))%nat;
  wf_nonblank : Forall (λ opt, trim opt ≠ "") (options poll);
  wf_question : question poll ≠ ""
}.

(** The sum of the elements of [votes], as [getResults] computes it. *)
Definition sum_votes (poll : Poll) : entry := totalVotes (votes poll).

(** The sum of the votes equals the number of voters. *)
Definition tally_matches (poll : Poll) : Prop :=
  sum_votes poll = Num (Z.of_nat (length (voters poll))).

(** ** The wording of the specification *)

(** "After trimming each option and discarding empty ones": the options
    whose trimmed text is not empty. *)
Definition nonblank (opts : list string) : list string :=
  filter (λ opt, trim opt ≠ "") opts.

(** "question non-empty after trimming whitespace; ... at least 2 must
    remain". *)
Definition valid_create (text : string) (opts : list string) : Prop :=
  trim text ≠ "" ∧ (2 ≤ length (nonblank opts))%nat.


(** The option index [i], as the JSON number of a request body. *)
Definition JInt (i : nat) : jsval := JNum (Fin (inject_Z (Z.of_nat i))).

(** An integer, as a JSON number. *)
Definition integer (n : number) : Prop :=
  ∃ z, match n with Fin q => (q == inject_Z z)%Q | _ => False end.

(** "optionIndex is an integer in [0, len(options))". *)
Definition valid_index (optionIndex : jsval) (poll : Poll) : Prop :=
  ∃ i, (i < length (options poll))%nat ∧
       match optionIndex with
       | JNum (Fin q) => (q == inject_Z (Z.of_nat i))%Q
       | _ => False
       end.

(** Every vote carries an integer where it carries a number. *)
Definition integer_index (r : Request) : Prop :=
  match r with
  | Vote _ (JNum n) _ _ => integer n
  | _ => True
  end.


(** A voter identity that a [Set] compares by content: anything but an
    array or an object. *)
Definition primitive (v : jsval) : bool :=
  match v with
  | JArr _ | JObj _ => false
  | _ => true
  end.

(** ** A sample run *)

Definition example_create : Request :=
  Create (JStr "Best color?") (JArr [JStr "Red"; JStr "Blue"; JStr "Blue"; JStr ""])
    1700000000000 "k3x9q2m1z" "2023-11-14T22:13:20.000Z".

Definition example_id : string := generatePollId 1700000000000 "k3x9q2m1z".

Definition example_poll : Poll :=
  new_poll example_id "Best color?" ["Red"; "Blue"; "Blue"]
    "2023-11-14T22:13:20.000Z".

(** The store after the sample poll is created. *)
Definition example_store : Store := (handle example_create empty_store).1.

(** The store after the sample poll is closed. *)
Definition closed_store : Store := (handle (Close example_id) example_store).1.

(** The option index 0.5. *)
Definition half : jsval := JNum (Fin (1 # 2)).

(** The store after a vote on the sample poll for the option index
    0.5. *)
Definition half_voted_store : Store :=
  run [example_create; Vote example_id half (JStr "voterA") "203.0.113.7"]
    empty_store.

(** ** The listing of all polls *)

(** An element of the [polls] array of GET /api/polls. *)
Record PollSummary := {
  summary_id : string;
  summary_question : string;
  summary_status : Status;
  summary_totalVotes : entry;
  summary_createdAt : string
}.

Definition summarize (poll : Poll) : PollSummary :=
  {| summary_id := id poll;
     summary_question := question poll;
     summary_status := status poll;
     summary_totalVotes := totalVotes (votes poll);
     summary_createdAt := createdAt poll |}.

(** The body of the response: [count] and [polls]. *)
Record PollList := {
  list_count : nat;
  list_polls : list PollSummary
}.

(** The own keys of [polls] in property order, which for keys that
    are not array indices is the order in which they were added:
    an assignment to a new key appends it, an assignment to a key
    that is there keeps its place, [delete] removes it. *)
Definition keys_after (r : Request) (s : Store) (keys : list string) :
    list string :=
  match r, (handle r s).2 with
  | Create _ _ _ _ _, PollCreated pollId _ _ _ =>
      if bool_decide (pollId ∈ keys) then keys else keys ++ [pollId]
  | Delete pollId, PollDeleted _ => filter (λ k, k ≠ pollId) keys
  | _, _ => keys
  end.

(** GET /api/polls: [Object.values(polls)] are the values of the own
    keys, in property order. *)
Definition getAllPolls (s : Store) (keys : list string) : PollList :=
  let pollsList := summarize <$> omap (λ k, polls s !! k) keys in
  {| list_count := length pollsList; list_polls := pollsList |}.

(** The states the server can be in, with the property order of
    [polls]. *)
Inductive listed : Store → list string → Prop :=
| listed_start : listed empty_store []
| listed_step r s keys :
    listed s keys → listed (handle r s).1 (keys_after r s keys).

(** ** Requests and the poll they name *)

(** The key of [polls] that a request reads or writes. *)
Definition request_key (r : Request) : string :=
  match r with
  | Create _ _ now suffix _ => generatePollId now suffix
  | Get pollId | Vote pollId _ _ _ | Results pollId | Close pollId
  | Delete pollId => pollId
  end.

(** [after] is a later state of the poll [before]: what is fixed at
    creation is the same, the voters were added to at the end, no
    count went down, and a closed poll is closed. *)
Record later_state (before after : Poll) : Prop := {
  later_id : id after = id before;
  later_question : question after = question before;
  later_options : options after = options before;
  later_createdAt : createdAt after = createdAt before;
  later_voters : voters before `prefix_of` voters after;
  later_length : length (votes after) = length (votes before);
  later_counts : ∀ i a, votes before !! i = Some (Num a) →
                 ∃ b, votes after !! i = Some (Num b) ∧ a ≤ b;
  later_status : status before = closed → status after = closed
}.

(** The first bytes of a string are white space for [trim]. *)
Definition leading_space (s : string) : bool :=
  match s with
  | EmptyString => false
  | String c1 r1 =>
      ws1 c1
      || match r1 with
         | EmptyString => false
         | String c2 r2 =>
             ws2 c1 c2
             || match r2 with
                | EmptyString => false
                | String c3 _ => ws3 c1 c2 c3
                end
         end
  end.

(** * Properties *)

(** ** Lookups *)

Lemma getPollOrError_own s pollId poll :
  polls s !! pollId = Some poll → getPollOrError s pollId = inr (Own poll).
Proof. unfold getPollOrError, polls_get. by intros ->. Qed.

Lemma getPollOrError_missing s pollId :
  polls s !! pollId = None → pollId ∉ object_prototype_keys →
  getPollOrError s pollId = inl "Poll not found".
Proof.
  unfold getPollOrError, polls_get. intros -> Hk.
  by rewrite bool_decide_eq_false_2.
Qed.

Lemma getPollOrError_inherited s pollId :
  polls s !! pollId = None → pollId ∈ object_prototype_keys →
  getPollOrError s pollId = inr (Inherited pollId).
Proof.
  unfold getPollOrError, polls_get. intros -> Hk.
  by rewrite bool_decide_eq_true_2.
Qed.

(** A generated identifier starts with [poll_], which no property of
    [Object.prototype] does. *)
Lemma generatePollId_not_inherited now suffix :
  generatePollId now suffix ∉ object_prototype_keys.
Proof.
  unfold generatePollId, object_prototype_keys. cbn [String.app].
  intros H. repeat (apply elem_of_cons in H as [H|H]; [discriminate H|]).
  by apply elem_of_nil in H.
Qed.

(** ** One step *)

Lemma handle_poll_change r s pollId :
  poll_change s pollId r (polls (handle r s).1 !! pollId).
Proof.
  destruct r as [q opts now suffix iso|k|k optionIndex voterId ip|k|k|k]; simpl.
  - unfold createPoll. repeat case_match; simpl; try apply change_none.
    destruct (decide (generatePollId now suffix = pollId)) as [<-|Hne].
    + rewrite lookup_insert_eq. apply change_create; [done| done| |].
      * by apply Nat.ltb_ge.
      * by apply negb_false_iff.
    + rewrite lookup_insert_ne by done. apply change_none.
  - unfold getPoll. repeat case_match; apply change_none.
  - unfold vote, getPollOrError, polls_get.
    destruct (polls s !! k) as [poll|] eqn:Hk.
    + simpl. destruct (status poll) eqn:Hst; simpl; [|apply change_none].
      destruct optionIndex; try apply change_none.
      destruct (lt_zero n) eqn:Hlt; [apply change_none|].
      destruct (ge_length n (length (options poll))) eqn:Hge; [apply change_none|].
      destruct (voters_has (voters poll) (uniqueVoterId voterId ip)) eqn:Hhas;
        [apply change_none|]. simpl.
      destruct (decide (k = pollId)) as [->|Hne].
      * rewrite lookup_insert_eq.
        by apply change_vote.
      * rewrite lookup_insert_ne by done. apply change_none.
    + destruct (bool_decide (k ∈ object_prototype_keys)); simpl;
        repeat case_match; apply change_none.
  - unfold getResults. repeat case_match; apply change_none.
  - unfold closePoll, getPollOrError, polls_get.
    destruct (polls s !! k) as [poll|] eqn:Hk.
    + simpl. destruct (status poll) eqn:Hst; simpl; [|apply change_none]. simpl.
      destruct (decide (k = pollId)) as [->|Hne].
      * rewrite lookup_insert_eq.
        by apply change_close.
      * rewrite lookup_insert_ne by done. apply change_none.
    + destruct (bool_decide (k ∈ object_prototype_keys)); simpl;
        repeat case_match; simpl; apply change_none.
  - unfold deletePoll. destruct (getPollOrError s k); simpl; [apply change_none|].
    destruct (decide (k = pollId)) as [->|Hne].
    + rewrite lookup_delete_eq. apply change_delete.
    + rewrite lookup_delete_ne by done. apply change_none.
Qed.

(** ** Reachable states *)

Lemma run_reachable_by (ok : Request → Prop) rs s :
  Forall ok rs → reachable_by ok s → reachable_by ok (run rs s).
Proof.
  unfold run. intros Hrs. revert s.
  induction Hrs as [|r rs Hr _ IH]; intros s Hs; simpl; [done|].
  apply IH. by constructor.
Qed.

(** A property of every new poll that closing and voting preserve
    holds of every stored poll. *)
Lemma stored_poll_ind (ok : Request → Prop) (P : string → Poll → Prop) :
  (∀ text elems now suffix iso cleanedOptions,
     ok (Create (JStr text) (JArr elems) now suffix iso) →
     filter_trim elems = Some cleanedOptions →
     (2 ≤ length cleanedOptions)%nat →
     truthy (JStr (trim text)) = true →
     P (generatePollId now suffix)
       (new_poll (generatePollId now suffix) (trim text) cleanedOptions iso)) →
  (∀ pollId poll, P pollId poll → P pollId (set_closed poll)) →
  (∀ pollId poll n voterId ip,
     ok (Vote pollId (JNum n) voterId ip) →
     P pollId poll →
     status poll = active →
     lt_zero n = false →
     ge_length n (length (options poll)) = false →
     voters_has (voters poll) (uniqueVoterId voterId ip) = false →
     P pollId (record_vote poll n (uniqueVoterId voterId ip))) →
  ∀ s, reachable_by ok s →
  ∀ pollId poll, polls s !! pollId = Some poll → P pollId poll.
Proof.
  intros Hnew Hclose Hvote s Hs.
  induction Hs as [|r s Hr Hs IH]; intros pollId poll' Hl.
  - simpl in Hl. by rewrite lookup_empty in Hl.
  - pose proof (handle_poll_change r s pollId) as Hch.
    rewrite Hl in Hch.
    inversion Hch as [r' Heq|poll Hp Hst|poll n voterId ip Hp Hst|
                      |text elems now suffix iso cl Hid Hf Hlen Htext];
      simplify_eq.
    + by apply IH.
    + apply Hclose. by apply IH.
    + apply Hvote; auto.
    + by eapply Hnew.
Qed.

(** ** The sample run *)

Lemma example_store_reachable : reachable example_store.
Proof. exact (reachable_step _ example_create empty_store I (reachable_start _)). Qed.

Lemma example_store_lookup : polls example_store !! example_id = Some example_poll.
Proof. vm_compute. reflexivity. Qed.

(** ** Array keys *)

Lemma array_key_index n i :
  array_key n = Index i →
  ∃ q, n = Fin q ∧ (q == inject_Z (Z.of_nat i))%Q.
Proof.
  destruct n as [q| |]; [|done..]. unfold array_key.
  destruct (Pos.eqb (Qden (Qred q)) 1 && (0 <=? Qnum (Qred q))) eqn:Hk; [|done].
  apply andb_true_iff in Hk as [Hden Hnum].
  apply Pos.eqb_eq in Hden. apply Z.leb_le in Hnum.
  intros [= <-]. exists q. split; [done|].
  rewrite <- (Qred_correct q) at 1. rewrite Z2Nat.id by done.
  destruct (Qred q) as [num den]. simpl in *. subst. reflexivity.
Qed.

Lemma array_key_in_range n i len :
  array_key n = Index i → ge_length n len = false → (i < len)%nat.
Proof.
  intros (q & -> & Hq)%array_key_index Hge. simpl in Hge.
  destruct (decide (i < len)%nat) as [|Hle]; [done|].
  assert (Qle_bool (inject_Z (Z.of_nat len)) q = true) as Hq'; [|congruence].
  apply Qle_bool_iff. rewrite Hq. rewrite <- Zle_Qle. lia.
Qed.

Lemma Qred_inject_Z z : Qred (inject_Z z) = inject_Z z.
Proof. apply Qred_identity. simpl. apply Z.gcd_1_r. Qed.

Lemma array_key_JInt i : array_key (Fin (inject_Z (Z.of_nat i))) = Index i.
Proof.
  unfold array_key. rewrite Qred_inject_Z. simpl.
  rewrite (proj2 (Z.leb_le 0 (Z.of_nat i))) by lia.
  by rewrite Nat2Z.id.
Qed.

Lemma lt_zero_JInt i : lt_zero (Fin (inject_Z (Z.of_nat i))) = false.
Proof.
  simpl. apply negb_false_iff, Qle_bool_iff.
  change 0%Q with (inject_Z 0). rewrite <- Zle_Qle. lia.
Qed.

Lemma ge_length_JInt i len :
  ge_length (Fin (inject_Z (Z.of_nat i))) len = bool_decide (len ≤ i)%nat.
Proof.
  simpl. case_bool_decide as Hle.
  - apply Qle_bool_iff. rewrite <- Zle_Qle. lia.
  - apply not_true_is_false. rewrite Qle_bool_iff, <- Zle_Qle. lia.
Qed.

(** ** The [votes] array *)

Lemma array_get_count a i e :
  Forall is_count a → a !! i = Some e → array_get a i = Some e.
Proof.
  intros Ha Hi. unfold array_get. rewrite Hi.
  eapply Forall_lookup_1 in Ha as (n & -> & _); done.
Qed.

Lemma increment_at_in_range a i n :
  Forall is_count a → a !! i = Some (Num n) →
  increment_at a i = <[i := Num (n + 1)]> a.
Proof.
  intros Ha Hi. unfold increment_at.
  rewrite (proj2 (Nat.ltb_lt _ _)) by (by eapply lookup_lt_Some).
  by rewrite (array_get_count a i (Num n)).
Qed.

Lemma is_count_lookup a i :
  Forall is_count a → (i < length a)%nat → ∃ n, a !! i = Some (Num n) ∧ 0 ≤ n.
Proof.
  intros Ha Hi. destruct (lookup_lt_is_Some_2 a i Hi) as [e He].
  destruct (Forall_lookup_1 _ _ _ _ Ha He) as (n & -> & Hn). eauto.
Qed.

Lemma increment_at_length a i :
  Forall is_count a → (i < length a)%nat →
  length (increment_at a i) = length a.
Proof.
  intros Ha Hi. destruct (is_count_lookup a i Ha Hi) as (n & Hn & _).
  rewrite (increment_at_in_range a i n) by done. apply length_insert.
Qed.

Lemma increment_at_counts a i :
  Forall is_count a → (i < length a)%nat → Forall is_count (increment_at a i).
Proof.
  intros Ha Hi. destruct (is_count_lookup a i Ha Hi) as (n & Hn & Hpos).
  rewrite (increment_at_in_range a i n) by done.
  apply Forall_insert; [done|]. exists (n + 1). split; [done|lia].
Qed.

Lemma filter_trim_nonblank elems cleanedOptions :
  filter_trim elems = Some cleanedOptions →
  Forall (λ opt, trim opt ≠ "") cleanedOptions.
Proof.
  revert cleanedOptions.
  induction elems as [|v elems IH]; intros cl; simpl.
  - by intros [= <-].
  - destruct v; try done.
    destruct (filter_trim elems) as [kept|]; [|done].
    intros [= <-]. specialize (IH kept eq_refl).
    destruct (String.eqb (trim s) "") eqn:Hs; simpl; [done|].
    constructor; [|done]. by apply String.eqb_neq.
Qed.

(** ** Well-formedness of stored polls *)

Lemma record_vote_well_formed pollId poll n uid :
  well_formed pollId poll →
  ge_length n (length (options poll)) = false →
  well_formed pollId (record_vote poll n uid).
Proof.
  intros [Hid Hkey Hlen Hcounts Hopts Hnb Hq] Hge.
  split; simpl; try done.
  - destruct (array_key n) as [i|] eqn:Hi; [|done].
    rewrite increment_at_length; [done..|].
    rewrite Hlen. by eapply array_key_in_range.
  - destruct (array_key n) as [i|] eqn:Hi; [|done].
    apply increment_at_counts; [done|].
    rewrite Hlen. by eapply array_key_in_range.
Qed.

Lemma new_poll_well_formed text elems now suffix iso cleanedOptions :
  filter_trim elems = Some cleanedOptions →
  (2 ≤ length cleanedOptions)%nat →
  truthy (JStr (trim text)) = true →
  well_formed (generatePollId now suffix)
    (new_poll (generatePollId now suffix) (trim text) cleanedOptions iso).
Proof.
  intros Hf Hlen Htext.
  split; simpl; eauto using filter_trim_nonblank.
  - by rewrite length_map.
  - apply Forall_map, Forall_true. intros _. by exists 0.
  - intros Hq. by rewrite Hq in Htext.
Qed.

Lemma set_closed_well_formed pollId poll :
  well_formed pollId poll → well_formed pollId (set_closed poll).
Proof. intros [? ? ? ? ? ? ?]. by split. Qed.

Lemma reachable_well_formed s pollId poll :
  reachable s → polls s !! pollId = Some poll → well_formed pollId poll.
Proof.
  intros Hs. revert pollId poll.
  apply (stored_poll_ind (λ _, True) well_formed); [| | |exact Hs].
  - intros text elems now suffix iso cl _. apply new_poll_well_formed.
  - apply set_closed_well_formed.
  - intros pid p n voterId ip _ Hwf _ _ Hge _.
    by apply record_vote_well_formed.
Qed.

(** ** The voter set *)

Lemma same_value_zero_refl v : primitive v = true → same_value_zero v v = true.
Proof.
  intros Hv. destruct v as [| |b|[q| |]|t| |]; simpl; try done.
  - by destruct b.
  - apply (proj2 (Qeq_bool_iff q q)). reflexivity.
  - by apply String.eqb_eq.
Qed.

Lemma voters_has_app vs ws v :
  voters_has (vs ++ ws) v = voters_has vs v || voters_has ws v.
Proof. apply existsb_app. Qed.

Lemma voters_add_fresh vs v :
  voters_has vs v = false → voters_add vs v = vs ++ [v].
Proof. unfold voters_add. by intros ->. Qed.

Lemma voters_has_add vs v :
  primitive v = true → voters_has (voters_add vs v) v = true.
Proof.
  intros Hv. unfold voters_add. destruct (voters_has vs v) eqn:Hhas; [done|].
  rewrite voters_has_app. simpl. rewrite same_value_zero_refl by done.
  by rewrite orb_true_r.
Qed.

(** ** Creating a poll *)

Lemma truthy_JStr t : truthy (JStr t) = bool_decide (t ≠ "").
Proof.
  simpl. destruct (String.eqb_spec t ""); simpl.
  - by rewrite bool_decide_eq_false_2 by auto.
  - by rewrite bool_decide_eq_true_2.
Qed.

Lemma filter_trim_strings opts :
  filter_trim (JStr <$> opts) = Some (nonblank opts).
Proof.
  unfold nonblank. induction opts as [|opt opts IH]; [done|].
  cbn [fmap list_fmap filter_trim]. fold (fmap (M:=list) JStr opts).
  rewrite IH, truthy_JStr, filter_cons. by case_bool_decide; case_decide.
Qed.

Lemma nonblank_length opts : (length (nonblank opts) ≤ length opts)%nat.
Proof. apply length_filter. Qed.

Lemma map_zero_replicate (l : list string) :
  map (λ _, Num 0) l = replicate (length l) (Num 0).
Proof. induction l as [|o l IH]; simpl; [done|]. by rewrite IH. Qed.

(** X20.  Outside the documented body type: an absent or otherwise falsy
    question and options that are not an array are validation errors;
    a truthy question that is not a string, or an option that is not
    a string, ends in a 500 response.  The store is unchanged. *)
Lemma createPoll_malformed q opts now suffix iso s :
  (truthy q = false →
   createPoll q opts now suffix iso s = (s, Failure 400 "Question is required"))
  ∧ (truthy q = true → (∀ text, q ≠ JStr text) →
     createPoll q opts now suffix iso s = (s, ServerError))
  ∧ (∀ text, q = JStr text → truthy (JStr (trim text)) = true →
     (∀ elems, opts ≠ JArr elems) →
     createPoll q opts now suffix iso s
     = (s, Failure 400 "At least 2 options are required"))
  ∧ (∀ text elems, q = JStr text → truthy (JStr (trim text)) = true →
     opts = JArr elems → (2 ≤ length elems)%nat → filter_trim elems = None →
     createPoll q opts now suffix iso s = (s, ServerError)).
Proof.
  unfold createPoll. repeat split.
  - by intros ->.
  - intros -> Hq. destruct q as [| | | |t| |]; try done. by destruct (Hq t).
  - intros text -> Htext Hopts.
    assert (truthy (JStr text) = true) as ->.
    { destruct text; [by vm_compute in Htext|done]. }
    rewrite Htext. simpl. destruct opts; try done. by destruct (Hopts elems).
  - intros text elems -> Htext -> Hlen Hf.
    assert (truthy (JStr text) = true) as ->.
    { destruct text; [by vm_compute in Htext|done]. }
    rewrite Htext, Hf. simpl.
    by rewrite (proj2 (Nat.ltb_ge (length elems) 2)).
Qed.


(** ** The stored options *)

(** X19.  The stored options are the input options whose trimmed text is
    not empty, in the input order, repeated ones included, each as it
    was sent. *)
Lemma createPoll_stores_nonblank text opts now suffix iso s poll :
  polls (createPoll (JStr text) (JArr (JStr <$> opts)) now suffix iso s).1
    !! generatePollId now suffix = Some poll →
  polls s !! generatePollId now suffix = None →
  options poll = nonblank opts
  ∧ Forall (λ opt, opt ≠ "" ∧ trim opt ≠ "") (options poll)
  ∧ options poll `sublist_of` opts.
Proof.
  intros Hafter Hbefore.
  pose proof (handle_poll_change
                (Create (JStr text) (JArr (JStr <$> opts)) now suffix iso) s
                (generatePollId now suffix)) as Hch.
  simpl in Hch. rewrite Hafter in Hch.
  inversion Hch as [r' Heq| | | |t e n' s' i' cl Hid Hf Hlen Htext];
    simplify_eq; try congruence.
  rewrite filter_trim_strings in Hf. injection Hf as <-. simpl.
  split; [done|]. split.
  - unfold nonblank. apply Forall_forall. intros o [Ho _]%list_elem_of_filter.
    split; [|done]. by intros ->.
  - apply sublist_filter.
Qed.

(** The scenario of the specification. *)
Example create_best_color :
  polls example_store !! example_id = Some example_poll
  ∧ options example_poll = ["Red"; "Blue"; "Blue"]
  ∧ votes example_poll = [Num 0; Num 0; Num 0].
Proof. split; [exact example_store_lookup|done]. Qed.

(** C5, on the input that breaks it.  An option sent with surrounding
    white space is stored with it: the filter of [createPoll] tests
    the trimmed text and keeps the text as sent, where the question
    is stored trimmed. *)
Theorem options_stored_untrimmed :
  let result :=
    createPoll (JStr " Size? ") (JArr [JStr " Red "; JStr "Blue"])
      1700000000000 "k3x9q2m1z" "2023-11-14T22:13:20.000Z" empty_store in
  result.2 = PollCreated example_id "Size?" [" Red "; "Blue"] active
  ∧ (∃ poll,
       polls result.1 !! example_id = Some poll
       ∧ question poll = trim " Size? "
       ∧ options poll = [" Red "; "Blue"]
       ∧ options poll ≠ trim <$> [" Red "; "Blue"])
  ∧ trim " Red " = "Red".
Proof.
  cbv zeta. split; [vm_compute; reflexivity|]. split; [|vm_compute; reflexivity].
  eexists. split; [vm_compute; reflexivity|]. by repeat split.
Qed.

(** ** The outcomes of [vote] on a stored poll *)

Lemma vote_closed s pollId poll optionIndex voterId ip :
  polls s !! pollId = Some poll → status poll = closed →
  vote pollId optionIndex voterId ip s = (s, ClosedError).
Proof.
  intros Hp Hst. unfold vote. rewrite (getPollOrError_own _ _ _ Hp). simpl.
  by rewrite Hst.
Qed.

Lemma vote_accepted s pollId poll n voterId ip :
  polls s !! pollId = Some poll → status poll = active →
  lt_zero n = false → ge_length n (length (options poll)) = false →
  voters_has (voters poll) (uniqueVoterId voterId ip) = false →
  vote pollId (JNum n) voterId ip s
  = (with_polls s
       (<[pollId := record_vote poll n (uniqueVoterId voterId ip)]> (polls s)),
     VoteRecorded pollId (option_at poll n)).
Proof.
  intros Hp Hst Hlt Hge Hhas. unfold vote.
  rewrite (getPollOrError_own _ _ _ Hp). simpl.
  by rewrite Hst, Hlt, Hge, Hhas.
Qed.

Lemma vote_duplicate s pollId poll n voterId ip :
  polls s !! pollId = Some poll → status poll = active →
  lt_zero n = false → ge_length n (length (options poll)) = false →
  voters_has (voters poll) (uniqueVoterId voterId ip) = true →
  vote pollId (JNum n) voterId ip s = (s, DuplicateVoteError).
Proof.
  intros Hp Hst Hlt Hge Hhas. unfold vote.
  rewrite (getPollOrError_own _ _ _ Hp). simpl.
  by rewrite Hst, Hlt, Hge, Hhas.
Qed.

(** ** The option index test *)

(** On a stored, active poll the answer is [InvalidOptionIndex], with
    the store unchanged, exactly when the option index is not a number
    of the interval from 0 to the number of options: the test looks
    at the range only. *)
Lemma vote_invalid_iff s pollId poll optionIndex voterId ip :
  polls s !! pollId = Some poll → status poll = active →
  ((vote pollId optionIndex voterId ip s).2 = InvalidOptionIndex
   ↔ ¬ ∃ n, optionIndex = JNum n ∧ lt_zero n = false
            ∧ ge_length n (length (options poll)) = false)
  ∧ ((vote pollId optionIndex voterId ip s).2 = InvalidOptionIndex →
     (vote pollId optionIndex voterId ip s).1 = s).
Proof.
  intros Hp Hst. unfold vote. rewrite (getPollOrError_own _ _ _ Hp). simpl.
  rewrite Hst. destruct optionIndex as [| | |n| | |];
    try (split; [split; [intros _ (n & ? & _); done|done]|done]).
  destruct (lt_zero n) eqn:Hlt; simpl.
  { split; [split; [|done]|done]. intros _ (n' & [= <-] & ? & _). congruence. }
  destruct (ge_length n (length (options poll))) eqn:Hge; simpl.
  { split; [split; [|done]|done]. intros _ (n' & [= <-] & _ & ?). congruence. }
  destruct (voters_has (voters poll) (uniqueVoterId voterId ip)); simpl.
  - split; [split; [done|]|done]. intros []. eauto.
  - split; [split; [done|]|done]. intros []. eauto.
Qed.

(** A valid index, in the wording of the specification, passes the
    test. *)
Lemma valid_index_passes optionIndex poll :
  valid_index optionIndex poll →
  ∃ n, optionIndex = JNum n ∧ lt_zero n = false
       ∧ ge_length n (length (options poll)) = false.
Proof.
  intros (i & Hi & Hq). destruct optionIndex as [| | |[q| |]| | |]; try done.
  exists (Fin q). split; [done|]. simpl. split.
  - apply negb_false_iff, Qle_bool_iff. rewrite Hq.
    change 0%Q with (inject_Z 0). rewrite <- Zle_Qle. lia.
  - apply not_true_is_false. rewrite Qle_bool_iff, Hq, <- Zle_Qle. lia.
Qed.

(** The direction that holds: a vote rejected for its option index
    did not carry an integer of the range. *)
Lemma rejected_index_not_valid s pollId poll optionIndex voterId ip :
  polls s !! pollId = Some poll → status poll = active →
  (vote pollId optionIndex voterId ip s).2 = InvalidOptionIndex →
  ¬ valid_index optionIndex poll.
Proof.
  intros Hp Hst Hinv Hvalid.
  destruct (vote_invalid_iff s pollId poll optionIndex voterId ip Hp Hst)
    as [[Hnot _] _].
  by apply (Hnot Hinv), valid_index_passes.
Qed.

(** C2, on the input that breaks it.  The sample poll is stored and
    active, has three options, and voterA has not voted.  The option
    index 0.5 is not an integer of the range, yet the vote is not
    answered with a validation error: it is recorded, with no option
    text, and voterA joins the voters while no count moves. *)
Theorem fractional_index_not_rejected :
  let result := vote example_id half (JStr "voterA") "203.0.113.7" example_store in
  polls example_store !! example_id = Some example_poll
  ∧ status example_poll = active
  ∧ voters_has (voters example_poll) (JStr "voterA") = false
  ∧ ¬ valid_index half example_poll
  ∧ result.2 = VoteRecorded example_id None
  ∧ ¬ ValidationError result.2
  ∧ ∃ poll,
      polls result.1 !! example_id = Some poll
      ∧ votes poll = votes example_poll
      ∧ voters poll = [JStr "voterA"].
Proof.
  cbv zeta. split; [exact example_store_lookup|].
  repeat split.
  - intros (i & _ & Hq). unfold Qeq in Hq. simpl in Hq. lia.
  - unfold ValidationError, InvalidOptionIndex.
    by intros [|[|[|]]].
  - eexists. split; [vm_compute; reflexivity|]. by split.
Qed.

(** ** Voting once per identity *)

(** C3.  In a state the server can be in, on a stored poll that is
    active, a vote whose identity is not yet among the voters and
    whose option index [i] designates an option is accepted: the
    response carries the poll identifier and the text of option [i],
    entry [i] of [votes] goes from [n] to [n + 1], every other entry
    and the length of [votes] stay as they were, and the identity is
    added to the voters.  A following vote on that poll resolving to
    the same identity (one compared by content), for any index that
    designates an option, is answered with [DuplicateVoteError] and
    leaves the store, hence every count and the voters, unchanged. *)
Theorem vote_fresh_then_duplicate s pollId poll i opt voterId ip :
  reachable s →
  polls s !! pollId = Some poll →
  status poll = active →
  options poll !! i = Some opt →
  primitive (uniqueVoterId voterId ip) = true →
  voters_has (voters poll) (uniqueVoterId voterId ip) = false →
  ∃ n poll',
    let s' := with_polls s (<[pollId := poll']> (polls s)) in
    vote pollId (JInt i) voterId ip s = (s', VoteRecorded pollId (Some opt))
    ∧ votes poll !! i = Some (Num n)
    ∧ votes poll' !! i = Some (Num (n + 1))
    ∧ (∀ j, j ≠ i → votes poll' !! j = votes poll !! j)
    ∧ length (votes poll') = length (votes poll)
    ∧ voters poll' = voters poll ++ [uniqueVoterId voterId ip]
    ∧ options poll' = options poll
    ∧ status poll' = active
    ∧ ∀ j voterId' ip',
        (j < length (options poll))%nat →
        uniqueVoterId voterId' ip' = uniqueVoterId voterId ip →
        vote pollId (JInt j) voterId' ip' s' = (s', DuplicateVoteError).
Proof.
  intros Hs Hp Hst Hopt Hprim Hfresh.
  destruct (reachable_well_formed s pollId poll Hs Hp)
    as [_ _ Hlen Hcounts _ _ _].
  assert (i < length (options poll))%nat as Hi by (by eapply lookup_lt_Some).
  destruct (is_count_lookup (votes poll) i Hcounts) as (n & Hn & _);
    [by rewrite Hlen|].
  set (uid := uniqueVoterId voterId ip) in *.
  exists n, (record_vote poll (Fin (inject_Z (Z.of_nat i))) uid).
  assert (votes (record_vote poll (Fin (inject_Z (Z.of_nat i))) uid)
          = <[i := Num (n + 1)]> (votes poll)) as Hvotes.
  { unfold record_vote. cbn [votes]. rewrite array_key_JInt.
    by apply increment_at_in_range. }
  cbv zeta. rewrite Hvotes. repeat split.
  - unfold JInt. rewrite (vote_accepted s pollId poll); try done.
    + unfold option_at. by rewrite array_key_JInt, Hopt.
    + apply lt_zero_JInt.
    + rewrite ge_length_JInt. apply bool_decide_eq_false_2. lia.
  - done.
  - apply list_lookup_insert_eq. by eapply lookup_lt_Some.
  - intros j Hj. by apply list_lookup_insert_ne.
  - apply length_insert.
  - simpl. by apply voters_add_fresh.
  - done.
  - intros j voterId' ip' Hj Huid. unfold JInt.
    apply (vote_duplicate _ _ (record_vote poll (Fin (inject_Z (Z.of_nat i))) uid)).
    + simpl. apply lookup_insert_eq.
    + done.
    + apply lt_zero_JInt.
    + rewrite ge_length_JInt. apply bool_decide_eq_false_2. simpl. lia.
    + rewrite Huid. simpl. by apply voters_has_add.
Qed.

Lemma vote_fresh_then_duplicate_witness :
  ∃ n poll',
    let s' := with_polls example_store (<[example_id := poll']> (polls example_store)) in
    vote example_id (JInt 1) (JStr "voterA") "203.0.113.7" example_store
    = (s', VoteRecorded example_id (Some "Blue"))
    ∧ votes example_poll !! 1%nat = Some (Num n)
    ∧ votes poll' !! 1%nat = Some (Num (n + 1))
    ∧ (∀ j, j ≠ 1%nat → votes poll' !! j = votes example_poll !! j)
    ∧ length (votes poll') = length (votes example_poll)
    ∧ voters poll' = voters example_poll ++ [uniqueVoterId (JStr "voterA") "203.0.113.7"]
    ∧ options poll' = options example_poll
    ∧ status poll' = active
    ∧ ∀ j voterId' ip',
        (j < length (options example_poll))%nat →
        uniqueVoterId voterId' ip' = uniqueVoterId (JStr "voterA") "203.0.113.7" →
        vote example_id (JInt j) voterId' ip' s' = (s', DuplicateVoteError).
Proof.
  apply (vote_fresh_then_duplicate example_store example_id example_poll 1 "Blue"
           (JStr "voterA") "203.0.113.7").
  - exact example_store_reachable.
  - exact example_store_lookup.
  - reflexivity.
  - reflexivity.
  - reflexivity.
  - reflexivity.
Defined.

(** ** The identity under which a vote is recorded *)






(** ** The tally *)

Lemma fold_counts a :
  Forall is_count a → ∃ t, ∀ acc, fold_left add_entry a (Num acc) = Num (acc + t).
Proof.
  induction 1 as [|e a (n & -> & _) _ [t IH]].
  - exists 0. intros acc. simpl. f_equal. lia.
  - exists (n + t). intros acc. simpl. rewrite IH. f_equal. lia.
Qed.

Lemma fold_counts_insert a i n acc t :
  Forall is_count a → a !! i = Some (Num n) →
  fold_left add_entry a (Num acc) = Num t →
  fold_left add_entry (<[i := Num (n + 1)]> a) (Num acc) = Num (t + 1).
Proof.
  intros Ha. revert i acc.
  induction Ha as [|e a (m & -> & _) Ha IH]; intros i acc Hi Ht; [done|].
  destruct i as [|i]; simpl in *.
  - injection Hi as ->. destruct (fold_counts a Ha) as [t0 Ht0].
    rewrite Ht0 in *. injection Ht as <-. f_equal. lia.
  - by apply IH.
Qed.

Lemma totalVotes_new (l : list string) : totalVotes (map (λ _, Num 0) l) = Num 0.
Proof.
  unfold totalVotes. generalize 0 at 2 3 as acc.
  induction l as [|o l IH]; intros acc; simpl; [done|].
  rewrite Z.add_0_r. apply IH.
Qed.

Lemma integer_array_key n :
  integer n → lt_zero n = false → ∃ i, array_key n = Index i.
Proof.
  intros [z Hz] Hlt. destruct n as [q| |]; [|done..]. simpl in Hlt.
  apply negb_false_iff, Qle_bool_iff in Hlt. rewrite Hz in Hlt.
  change 0%Q with (inject_Z 0) in Hlt. rewrite <- Zle_Qle in Hlt.
  exists (Z.to_nat z). unfold array_key.
  rewrite (Qred_complete _ _ Hz), Qred_inject_Z. simpl.
  by rewrite (proj2 (Z.leb_le 0 z)).
Qed.

Lemma record_vote_tally poll n uid i :
  Forall is_count (votes poll) →
  length (votes poll) = length (options poll) →
  array_key n = Index i →
  ge_length n (length (options poll)) = false →
  voters_has (voters poll) uid = false →
  tally_matches poll → tally_matches (record_vote poll n uid).
Proof.
  unfold tally_matches, sum_votes, totalVotes.
  intros Hcounts Hlen Hkey Hge Hfresh Htally.
  assert (i < length (votes poll))%nat as Hi
    by (rewrite Hlen; by eapply array_key_in_range).
  destruct (is_count_lookup _ _ Hcounts Hi) as (m & Hm & _).
  unfold record_vote. cbn [votes voters]. rewrite Hkey.
  rewrite (increment_at_in_range _ _ m), voters_add_fresh by done.
  rewrite (fold_counts_insert _ _ _ _ _ Hcounts Hm Htally).
  rewrite length_app. simpl. f_equal. lia.
Qed.

(** X16.  When every vote carries an integer index, the sum of the
    votes of a stored poll is the number of its voters. *)
Lemma tally_integer_votes s pollId poll :
  reachable_by integer_index s → polls s !! pollId = Some poll →
  tally_matches poll.
Proof.
  intros Hs Hp.
  enough (well_formed pollId poll ∧ tally_matches poll) as [_ ?] by done.
  revert pollId poll Hp.
  apply (stored_poll_ind integer_index
           (λ pollId poll, well_formed pollId poll ∧ tally_matches poll));
    [| | |exact Hs].
  - intros text elems now suffix iso cl Hok Hf Hlen Htext. split.
    + by eapply new_poll_well_formed.
    + unfold tally_matches, sum_votes. simpl. apply totalVotes_new.
  - intros pid p [Hwf Ht]. split; [by apply set_closed_well_formed|done].
  - intros pid p n voterId ip Hint [Hwf Ht] _ Hlt Hge Hfresh. split.
    + by apply record_vote_well_formed.
    + destruct (integer_array_key n Hint Hlt) as [i Hi].
      destruct Hwf. by eapply record_vote_tally.
Qed.

(** C1, on the input that breaks it.  A vote whose option index is
    0.5 passes the range test of [vote]: the voter is added, the
    request is answered as recorded, and no element of [votes] is
    incremented.  After it the sum of the votes of the poll is 0 and
    its voter set has one element. *)
Theorem tally_broken_by_fractional_index :
  reachable half_voted_store
  ∧ ∃ poll,
      polls half_voted_store !! example_id = Some poll
      ∧ sum_votes poll = Num 0
      ∧ length (voters poll) = 1%nat
      ∧ ¬ tally_matches poll.
Proof.
  split.
  - apply (run_reachable_by _ _ empty_store); [|constructor].
    by repeat constructor.
  - eexists. split; [vm_compute; reflexivity|]. by repeat split.
Qed.

(** ** Closing a poll *)

Lemma closePoll_active s pollId poll :
  polls s !! pollId = Some poll → status poll = active →
  closePoll pollId s
  = (with_polls s (<[pollId := set_closed poll]> (polls s)),
     PollClosed pollId closed).
Proof.
  intros Hp Hst. unfold closePoll. rewrite (getPollOrError_own _ _ _ Hp).
  simpl. by rewrite Hst.
Qed.

Lemma closePoll_closed s pollId poll :
  polls s !! pollId = Some poll → status poll = closed →
  closePoll pollId s = (s, AlreadyClosedError).
Proof.
  intros Hp Hst. unfold closePoll. rewrite (getPollOrError_own _ _ _ Hp).
  simpl. by rewrite Hst.
Qed.

Lemma run_cons r rs s : run (r :: rs) s = run rs (handle r s).1.
Proof. done. Qed.

(** One request moves the status of a stored poll from active to
    closed or leaves it, unless it stores a new poll under that key. *)
Lemma status_step r s pollId before after :
  polls s !! pollId = Some before →
  created_id r ≠ Some pollId →
  polls (handle r s).1 !! pollId = Some after →
  status after = status before
  ∨ (status before = active ∧ status after = closed).
Proof.
  intros Hp Hr Hafter. pose proof (handle_poll_change r s pollId) as Hch.
  rewrite Hafter in Hch.
  inversion Hch as [r' Heq|poll Hp' Hst|poll n voterId ip Hp' Hst| |
                    text elems now suffix iso cl Hid]; simplify_eq; auto.
Qed.

(** A closed poll is closed after any request, unless the request
    deletes it or stores a new poll under its key. *)
Lemma closed_step r s pollId :
  created_id r ≠ Some pollId →
  (∀ poll, polls s !! pollId = Some poll → status poll = closed) →
  ∀ poll, polls (handle r s).1 !! pollId = Some poll → status poll = closed.
Proof.
  intros Hr Hs after Hafter.
  pose proof (handle_poll_change r s pollId) as Hch. rewrite Hafter in Hch.
  inversion Hch as [r' Heq|poll Hp' Hst|poll n voterId ip Hp' Hst| |
                    text elems now suffix iso cl Hid]; simplify_eq;
    first [by apply Hs | done | specialize (Hs _ Hp'); congruence].
Qed.

Lemma closed_run rs s pollId :
  Forall (λ r, created_id r ≠ Some pollId) rs →
  (∀ poll, polls s !! pollId = Some poll → status poll = closed) →
  ∀ poll, polls (run rs s) !! pollId = Some poll → status poll = closed.
Proof.
  intros Hrs. revert s. induction Hrs as [|r rs Hr _ IH]; intros s Hs; [done|].
  rewrite run_cons. apply IH. by apply closed_step.
Qed.

(** C6.  The first Close of a stored, active poll succeeds and leaves
    it closed.  From then on, after any sequence of requests, none of
    which stores a new poll under the same identifier, the poll, as
    long as it has not been deleted, is closed, and a Close of it is
    answered with [AlreadyClosedError] and changes nothing.  More
    generally one request either keeps the status of a stored poll or
    moves it from active to closed. *)
Theorem close_once s pollId poll :
  polls s !! pollId = Some poll →
  status poll = active →
  let s1 := (closePoll pollId s).1 in
  closePoll pollId s = (s1, PollClosed pollId closed)
  ∧ polls s1 !! pollId = Some (set_closed poll)
  ∧ status (set_closed poll) = closed
  ∧ (∀ rs,
       Forall (λ r, created_id r ≠ Some pollId) rs →
       ∀ after, polls (run rs s1) !! pollId = Some after →
         status after = closed
         ∧ closePoll pollId (run rs s1) = (run rs s1, AlreadyClosedError))
  ∧ (∀ r s0 before after,
       polls s0 !! pollId = Some before →
       created_id r ≠ Some pollId →
       polls (handle r s0).1 !! pollId = Some after →
       status after = status before
       ∨ (status before = active ∧ status after = closed)).
Proof.
  intros Hp Hst s1. unfold s1. rewrite (closePoll_active s pollId poll Hp Hst).
  simpl. rewrite lookup_insert_eq. repeat split; try done.
  - eapply closed_run; [done| |done].
    intros p. simpl. rewrite lookup_insert_eq. by intros [= <-].
  - eapply closePoll_closed; [done|].
    eapply closed_run; [done| |done].
    intros p. simpl. rewrite lookup_insert_eq. by intros [= <-].
  - intros r s0 before after. apply status_step.
Qed.

Lemma close_once_witness :
  let s1 := (closePoll example_id example_store).1 in
  closePoll example_id example_store = (s1, PollClosed example_id closed)
  ∧ polls s1 !! example_id = Some (set_closed example_poll)
  ∧ status (set_closed example_poll) = closed
  ∧ (∀ rs,
       Forall (λ r, created_id r ≠ Some example_id) rs →
       ∀ after, polls (run rs s1) !! example_id = Some after →
         status after = closed
         ∧ closePoll example_id (run rs s1) = (run rs s1, AlreadyClosedError))
  ∧ (∀ r s0 before after,
       polls s0 !! example_id = Some before →
       created_id r ≠ Some example_id →
       polls (handle r s0).1 !! example_id = Some after →
       status after = status before
       ∨ (status before = active ∧ status after = closed)).
Proof.
  apply (close_once example_store example_id example_poll).
  - exact example_store_lookup.
  - reflexivity.
Defined.

(** ** Closed polls *)

Lemma frozen_step r s pollId poll :
  polls s !! pollId = Some poll → status poll = closed →
  r ≠ Delete pollId → created_id r ≠ Some pollId →
  polls (handle r s).1 !! pollId = Some poll.
Proof.
  intros Hp Hst Hdel Hr. pose proof (handle_poll_change r s pollId) as Hch.
  inversion Hch as [r' Heq|p Hp' Hst'|p n voterId ip Hp' Hst'| |
                    text elems now suffix iso cl Hid]; simplify_eq;
    congruence.
Qed.

(** C7.  On a stored poll that is closed, every vote, whatever its
    option index, voter identifier and address, is answered with
    [ClosedError] and leaves the store unchanged; and after any
    sequence of requests other than a Delete of the poll (or a Create
    that stores a new poll under its identifier) the poll record, its
    votes and voters included, is the same. *)
Theorem closed_poll_frozen s pollId poll :
  polls s !! pollId = Some poll →
  status poll = closed →
  (∀ optionIndex voterId ip,
     vote pollId optionIndex voterId ip s = (s, ClosedError))
  ∧ (∀ rs,
       Forall (λ r, r ≠ Delete pollId ∧ created_id r ≠ Some pollId) rs →
       polls (run rs s) !! pollId = Some poll).
Proof.
  intros Hp Hst. split.
  - intros optionIndex voterId ip. by eapply vote_closed.
  - intros rs Hrs. revert s Hp.
    induction Hrs as [|r rs [Hdel Hr] _ IH]; intros s Hp; [done|].
    rewrite run_cons. apply IH. by apply frozen_step.
Qed.

Lemma closed_poll_frozen_witness :
  (∀ optionIndex voterId ip,
     vote example_id optionIndex voterId ip closed_store
     = (closed_store, ClosedError))
  ∧ (∀ rs,
       Forall (λ r, r ≠ Delete example_id ∧ created_id r ≠ Some example_id) rs →
       polls (run rs closed_store) !! example_id = Some (set_closed example_poll)).
Proof.
  apply (closed_poll_frozen closed_store example_id (set_closed example_poll)).
  - vm_compute. reflexivity.
  - reflexivity.
Defined.

(** ** Deleting a poll *)

Lemma stored_key_not_inherited s pollId poll :
  reachable s → polls s !! pollId = Some poll →
  pollId ∉ object_prototype_keys.
Proof.
  intros Hs Hp.
  destruct (reachable_well_formed s pollId poll Hs Hp) as [_ (now & suffix & ->)].
  apply generatePollId_not_inherited.
Qed.

Lemma not_found s pollId :
  polls s !! pollId = None → pollId ∉ object_prototype_keys →
  getPoll pollId s = (s, NotFoundError)
  ∧ (∀ optionIndex voterId ip,
       vote pollId optionIndex voterId ip s = (s, NotFoundError))
  ∧ getResults pollId s = (s, NotFoundError)
  ∧ closePoll pollId s = (s, NotFoundError)
  ∧ deletePoll pollId s = (s, NotFoundError).
Proof.
  intros Hp Hk. unfold getPoll, vote, getResults, closePoll, deletePoll.
  by rewrite (getPollOrError_missing s pollId Hp Hk).
Qed.

(** A key with no poll has none after any request that does not store
    a new poll under it. *)
Lemma absent_run rs s pollId :
  Forall (λ r, created_id r ≠ Some pollId) rs →
  polls s !! pollId = None → polls (run rs s) !! pollId = None.
Proof.
  intros Hrs. revert s. induction Hrs as [|r rs Hr _ IH]; intros s Hs; [done|].
  rewrite run_cons. apply IH.
  pose proof (handle_poll_change r s pollId) as Hch.
  inversion Hch as [r' Heq|p Hp' Hst'|p n voterId ip Hp' Hst'| |
                    text elems now suffix iso cl Hid]; simplify_eq/=;
    congruence.
Qed.

(** X18.  Deleting a stored poll removes it, and only it; afterwards, and
    until a poll is created under the same identifier, every request
    that names it is answered with [NotFoundError]. *)
Lemma delete_stored_poll s pollId poll :
  reachable s → polls s !! pollId = Some poll →
  let s1 := (deletePoll pollId s).1 in
  deletePoll pollId s = (s1, PollDeleted pollId)
  ∧ polls s1 !! pollId = None
  ∧ (∀ k, k ≠ pollId → polls s1 !! k = polls s !! k)
  ∧ ∀ rs, Forall (λ r, created_id r ≠ Some pollId) rs →
      let s2 := run rs s1 in
      getPoll pollId s2 = (s2, NotFoundError)
      ∧ (∀ optionIndex voterId ip,
           vote pollId optionIndex voterId ip s2 = (s2, NotFoundError))
      ∧ getResults pollId s2 = (s2, NotFoundError)
      ∧ closePoll pollId s2 = (s2, NotFoundError)
      ∧ deletePoll pollId s2 = (s2, NotFoundError).
Proof.
  intros Hs Hp s1.
  assert (deletePoll pollId s
          = (with_polls s (delete pollId (polls s)), PollDeleted pollId)) as Hdel.
  { unfold deletePoll. by rewrite (getPollOrError_own _ _ _ Hp). }
  unfold s1. rewrite Hdel. simpl. rewrite lookup_delete_eq.
  split; [done|]. split; [done|]. split.
  - intros k Hk. by rewrite lookup_delete_ne.
  - intros rs Hrs. apply not_found.
    + apply absent_run; [done|]. simpl. apply lookup_delete_eq.
    + by eapply stored_key_not_inherited.
Qed.

(** A Delete that names a property of [Object.prototype] is answered
    as a success in every state, and changes nothing. *)
Lemma delete_inherited s key :
  reachable s → key ∈ object_prototype_keys →
  deletePoll key s = (s, PollDeleted key).
Proof.
  intros Hs Hkey.
  assert (polls s !! key = None) as Hnone.
  { destruct (polls s !! key) as [poll|] eqn:Hp; [|done].
    by destruct (stored_key_not_inherited s key poll Hs Hp). }
  unfold deletePoll. rewrite (getPollOrError_inherited s key Hnone Hkey).
  unfold with_polls. rewrite (delete_id _ _ Hnone). by destruct s.
Qed.

(** C9, on the input that breaks it.  No poll is stored under
    [constructor], yet [polls["constructor"]] is the function that
    the object literal inherits, which the existence test of
    [getPollOrError] takes for a poll: the Delete is answered as a
    success, where a Delete of an identifier that names nothing is
    answered with [NotFoundError]. *)
Theorem delete_inherited_key_succeeds :
  polls empty_store !! "constructor" = None
  ∧ deletePoll "constructor" empty_store
    = (empty_store, PollDeleted "constructor")
  ∧ deletePoll "constructor" empty_store ≠ (empty_store, NotFoundError)
  ∧ deletePoll "poll_0_missing" empty_store = (empty_store, NotFoundError).
Proof. repeat split; try done; vm_compute; reflexivity. Qed.

(** ** Results *)

(** X17.  The total of the results is the sum of the votes; when it is 0
    every percentage is the number 0, and otherwise every percentage
    is the text that [toFixed(1)] makes of the share. *)
Lemma getResults_stored s pollId poll :
  reachable s → polls s !! pollId = Some poll →
  ∃ total lines,
    getResults pollId s
    = (s, PollResults pollId (question poll) (status poll) (Num total) lines
            (createdAt poll))
    ∧ sum_votes poll = Num total
    ∧ line_option <$> lines = options poll
    ∧ line_votes <$> lines = Some <$> votes poll
    ∧ Forall (λ l, line_percentage l
                   = if 0 <? total then ToFixed1 (line_votes l) total
                     else PercentZero) lines.
Proof.
  intros Hs Hp.
  destruct (reachable_well_formed s pollId poll Hs Hp)
    as [_ _ Hlen Hcounts _ _ _].
  destruct (fold_counts _ Hcounts) as [t Ht]. specialize (Ht 0).
  exists (0 + t), (imap (result_line poll (Num (0 + t))) (options poll)).
  unfold getResults. rewrite (getPollOrError_own _ _ _ Hp).
  unfold sum_votes, totalVotes. rewrite Ht. repeat split.
  - apply list_eq. intros i. rewrite list_lookup_fmap, list_lookup_imap.
    by destruct (options poll !! i).
  - apply list_eq. intros i.
    rewrite !list_lookup_fmap, list_lookup_imap.
    destruct (options poll !! i) as [o|] eqn:Ho; simpl.
    + destruct (is_count_lookup (votes poll) i Hcounts) as (n & Hn & _).
      { rewrite Hlen. by eapply lookup_lt_Some. }
      unfold array_get. by rewrite Hn.
    + rewrite lookup_ge_None_2; [done|].
      rewrite Hlen. by apply lookup_ge_None_1.
  - apply Forall_forall. intros l Hl.
    apply list_elem_of_lookup in Hl as [i Hl].
    rewrite list_lookup_imap in Hl.
    destruct (options poll !! i); [|done]. injection Hl as <-.
    simpl. by destruct (0 <? 0 + t).
Qed.

(** * Further properties of the handlers *)

(** ** Generated identifiers *)

Lemma to_uint_not_nil n : N.to_uint n ≠ Decimal.Nil.
Proof. destruct n as [|p]; [done|]. apply Unsigned.to_uint_nonnil. Qed.

Lemma number_to_string_digits n :
  number_to_string n = NilEmpty.string_of_uint (N.to_uint n).
Proof.
  unfold number_to_string. pose proof (to_uint_not_nil n).
  by destruct (N.to_uint n).
Qed.

(** The digits of a number end where the first underscore is. *)
Lemma digits_underscore_inj d d' rest rest' :
  NilEmpty.string_of_uint d +:+ String "_" rest
  = NilEmpty.string_of_uint d' +:+ String "_" rest' →
  d = d' ∧ rest = rest'.
Proof.
  revert d'. induction d as [|d IH|d IH|d IH|d IH|d IH|d IH|d IH|d IH|d IH|d IH];
    intros [|d'|d'|d'|d'|d'|d'|d'|d'|d'|d']; simpl; intros Heq;
    try discriminate Heq;
    try (injection Heq as Heq; destruct (IH _ Heq) as [-> ->]; done).
  by injection Heq as ->.
Qed.

(** X1.  Two generated identifiers are equal only when the clock
    reading and the random suffix are: a Create stores its poll under
    the key of an earlier one only when both repeat. *)
Theorem generatePollId_inj now suffix now' suffix' :
  generatePollId now suffix = generatePollId now' suffix' →
  now = now' ∧ suffix = suffix'.
Proof.
  unfold generatePollId. rewrite !number_to_string_digits.
  intros Heq. apply (inj (String.app "poll_")) in Heq.
  apply digits_underscore_inj in Heq as [Hd ->].
  split; [|done]. by apply Unsigned.to_uint_inj.
Qed.

Lemma generatePollId_inj_witness :
  1700000000000%N = 1700000000000%N ∧ "k3x9q2m1z" = "k3x9q2m1z".
Proof.
  apply (generatePollId_inj 1700000000000 "k3x9q2m1z" 1700000000000 "k3x9q2m1z").
  reflexivity.
Defined.

(** ** Requests that fail, and requests for other polls *)

(** X2.  A request answered with a failure, whatever its status code,
    leaves the store as it was; so do the two reading requests,
    whatever they answer. *)
Theorem failure_keeps_store r s code message :
  (handle r s).2 = Failure code message
  ∨ (∃ pollId, r = Get pollId ∨ r = Results pollId) →
  (handle r s).1 = s.
Proof.
  intros [Hfail|(pollId & [-> | ->])].
  - destruct r as [q opts now suffix iso|k|k optionIndex voterId ip|k|k|k];
      simpl in *.
    + unfold createPoll in *. by repeat case_match.
    + unfold getPoll in *. by repeat case_match.
    + unfold vote in *. by repeat case_match.
    + unfold getResults in *. by repeat case_match.
    + unfold closePoll in *. by repeat case_match.
    + unfold deletePoll in *. by repeat case_match.
  - simpl. unfold getPoll. by repeat case_match.
  - simpl. unfold getResults. by repeat case_match.
Qed.

Lemma failure_keeps_store_witness :
  (handle (Vote example_id (JInt 7) (JStr "voterA") "203.0.113.7") example_store).1
  = example_store.
Proof.
  apply (failure_keeps_store _ _ 400 "Invalid option index").
  left. vm_compute. reflexivity.
Defined.

(** X3.  A request changes no poll but the one it names: every other
    key of the store holds after the request what it held before. *)
Theorem other_polls_untouched r s pollId :
  request_key r ≠ pollId →
  polls (handle r s).1 !! pollId = polls s !! pollId.
Proof.
  intros Hne. pose proof (handle_poll_change r s pollId) as Hch.
  inversion Hch as [r' Heq|p Hp Hst|p n voterId ip Hp Hst| |
                    text elems now suffix iso cl Hid]; simplify_eq/=; done.
Qed.

Lemma other_polls_untouched_witness :
  polls (handle (Delete "poll_1_other") example_store).1 !! example_id
  = polls example_store !! example_id.
Proof.
  apply (other_polls_untouched (Delete "poll_1_other") example_store example_id).
  discriminate.
Defined.

(** ** Polls that are not there *)


(** ** Trimming *)

Lemma string_app_cons x (a b : string) : String x a +:+ b = String x (a +:+ b).
Proof. reflexivity. Qed.

Lemma string_app_assoc (a b c : string) : (a +:+ b) +:+ c = a +:+ (b +:+ c).
Proof.
  induction a as [|x a IH]; [done|]. rewrite !string_app_cons. by f_equal.
Qed.

Lemma string_app_nil_r (a : string) : a +:+ "" = a.
Proof. induction a as [|x a IH]; [done|]. rewrite string_app_cons. by f_equal. Qed.

Lemma rev_app_spec (a b : string) : String.rev_app a b = String.rev a +:+ b.
Proof.
  unfold String.rev. revert b. induction a as [|x a IH]; intros b; simpl; [done|].
  rewrite (IH (String x b)), (IH (String x "")). by rewrite string_app_assoc.
Qed.

Lemma rev_cons x (a : string) : String.rev (String x a) = String.rev a +:+ String x "".
Proof. unfold String.rev at 1. simpl. apply rev_app_spec. Qed.

Lemma rev_app_distr (a b : string) :
  String.rev (a +:+ b) = String.rev b +:+ String.rev a.
Proof.
  induction a as [|x a IH].
  - symmetry. apply string_app_nil_r.
  - by rewrite string_app_cons, !rev_cons, IH, string_app_assoc.
Qed.

Lemma rev_involutive (a : string) : String.rev (String.rev a) = a.
Proof.
  induction a as [|x a IH]; [done|].
  by rewrite rev_cons, rev_app_distr, IH.
Qed.

(** What [trimStart] returns does not start with white space, and a
    string that does not is returned as it is. *)
Lemma trimStart_leading s : leading_space (trimStart s) = false.
Proof.
  remember (String.length s) as n eqn:Hn.
  revert s Hn. induction (lt_wf n) as [n _ IH]. intros s ->.
  destruct s as [|c1 [|c2 [|c3 r3]]]; simpl.
  - done.
  - by destruct (ws1 c1) eqn:H1; simpl; rewrite ?H1.
  - destruct (ws1 c1) eqn:H1.
    { exact (IH (String.length (String c2 "")) ltac:(simpl; lia) (String c2 "") eq_refl). }
    destruct (ws2 c1 c2) eqn:H2; [done|]. simpl. by rewrite H1, H2.
  - destruct (ws1 c1) eqn:H1.
    { exact (IH (String.length (String c2 (String c3 r3))) ltac:(simpl; lia) (String c2 (String c3 r3)) eq_refl). }
    destruct (ws2 c1 c2) eqn:H2.
    { exact (IH (String.length (String c3 r3)) ltac:(simpl; lia) (String c3 r3) eq_refl). }
    destruct (ws3 c1 c2 c3) eqn:H3.
    { exact (IH (String.length r3) ltac:(simpl; lia) r3 eq_refl). }
    simpl. by rewrite H1, H2, H3.
Qed.

Lemma trimStart_fixed s : leading_space s = false → trimStart s = s.
Proof.
  destruct s as [|c1 [|c2 [|c3 r3]]]; simpl; [done|..].
  - rewrite orb_false_r. by intros ->.
  - intros [-> [-> _]%orb_false_iff]%orb_false_iff. done.
  - intros [-> [-> ->]%orb_false_iff]%orb_false_iff. done.
Qed.

Lemma trimStart_rev_idem s : trimStart_rev (trimStart_rev s) = trimStart_rev s.
Proof.
  remember (String.length s) as n eqn:Hn.
  revert s Hn. induction (lt_wf n) as [n _ IH]. intros s ->.
  destruct s as [|c1 [|c2 [|c3 r3]]]; simpl.
  - done.
  - by destruct (ws1 c1) eqn:H1; simpl; rewrite ?H1.
  - destruct (ws1 c1) eqn:H1.
    { exact (IH (String.length (String c2 "")) ltac:(simpl; lia) (String c2 "") eq_refl). }
    destruct (ws2 c2 c1) eqn:H2; [done|]. simpl. by rewrite H1, H2.
  - destruct (ws1 c1) eqn:H1.
    { exact (IH (String.length (String c2 (String c3 r3))) ltac:(simpl; lia) (String c2 (String c3 r3)) eq_refl). }
    destruct (ws2 c2 c1) eqn:H2.
    { exact (IH (String.length (String c3 r3)) ltac:(simpl; lia) (String c3 r3) eq_refl). }
    destruct (ws3 c3 c2 c1) eqn:H3.
    { exact (IH (String.length r3) ltac:(simpl; lia) r3 eq_refl). }
    simpl. by rewrite H1, H2, H3.
Qed.

(** [trimStart_rev] drops bytes from the front only. *)
Lemma trimStart_rev_suffix s : ∃ dropped, s = dropped +:+ trimStart_rev s.
Proof.
  remember (String.length s) as n eqn:Hn.
  revert s Hn. induction (lt_wf n) as [n _ IH]. intros s ->.
  destruct s as [|c1 [|c2 [|c3 r3]]]; simpl.
  - by exists "".
  - destruct (ws1 c1); [by exists (String c1 "")|by exists ""].
  - destruct (ws1 c1).
    { destruct (IH _ (Nat.lt_succ_diag_r _) (String c2 "") eq_refl) as [d Hd].
      exists (String c1 d). rewrite string_app_cons. f_equal. exact Hd. }
    destruct (ws2 c2 c1); [by exists (String c1 (String c2 ""))|by exists ""].
  - destruct (ws1 c1).
    { destruct (IH _ (Nat.lt_succ_diag_r _) (String c2 (String c3 r3)) eq_refl)
        as [d Hd].
      exists (String c1 d). rewrite string_app_cons. f_equal. exact Hd. }
    destruct (ws2 c2 c1).
    { assert (String.length (String c3 r3)
              < String.length (String c1 (String c2 (String c3 r3))))%nat as Hlt
        by (simpl; lia).
      destruct (IH _ Hlt (String c3 r3) eq_refl) as [d Hd].
      exists (String c1 (String c2 d)). rewrite !string_app_cons.
      do 2 f_equal. exact Hd. }
    destruct (ws3 c3 c2 c1).
    { assert (String.length r3
              < String.length (String c1 (String c2 (String c3 r3))))%nat as Hlt
        by (simpl; lia).
      destruct (IH _ Hlt r3 eq_refl) as [d Hd].
      exists (String c1 (String c2 (String c3 d))).
      rewrite !string_app_cons. do 3 f_equal. exact Hd. }
    by exists "".
Qed.

(** [trimEnd] drops bytes from the end only. *)
Lemma trimEnd_prefix s : ∃ dropped, s = trimEnd s +:+ dropped.
Proof.
  unfold trimEnd. destruct (trimStart_rev_suffix (String.rev s)) as [d Hd].
  exists (String.rev d). rewrite <- rev_app_distr, <- Hd.
  by rewrite rev_involutive.
Qed.

Lemma trimEnd_idem s : trimEnd (trimEnd s) = trimEnd s.
Proof. unfold trimEnd. by rewrite rev_involutive, trimStart_rev_idem. Qed.

Lemma leading_space_prefix (a b : string) :
  leading_space (a +:+ b) = false → leading_space a = false.
Proof.
  destruct a as [|c1 [|c2 [|c3 r3]]]; rewrite ?string_app_cons; simpl;
    [done|..].
  - intros [-> _]%orb_false_iff. done.
  - destruct b; simpl.
    + intros [-> [-> _]%orb_false_iff]%orb_false_iff. done.
    + intros [-> [-> _]%orb_false_iff]%orb_false_iff. done.
  - done.
Qed.

(** Trimming twice is trimming once: what [trim] returns has no white
    space left at either end. *)
Lemma trim_trim s : trim (trim s) = trim s.
Proof.
  unfold trim.
  destruct (trimEnd_prefix (trimStart s)) as [d Hd].
  rewrite (trimStart_fixed (trimEnd (trimStart s))).
  - apply trimEnd_idem.
  - apply (leading_space_prefix _ d). rewrite <- Hd. apply trimStart_leading.
Qed.

(** ** What holds of every stored poll *)

Lemma stored_question_trimmed s pollId poll :
  reachable s → polls s !! pollId = Some poll →
  trim (question poll) = question poll.
Proof.
  intros Hs. revert pollId poll.
  apply (stored_poll_ind (λ _, True) (λ _ poll, trim (question poll) = question poll));
    [| | |exact Hs]; try done.
  intros. apply trim_trim.
Qed.

(** X5.  In every state the server can be in, a stored poll carries
    its key as [id], its key is a generated identifier (hence no
    property name of [Object.prototype]), it has at least two
    options, none of them blank, as many votes as options, each a
    count that is not negative, and a question that is not empty and
    has no white space at either end. *)
Theorem stored_poll_invariants s pollId poll :
  reachable s →
  polls s !! pollId = Some poll →
  id poll = pollId
  ∧ (∃ now suffix, pollId = generatePollId now suffix)
  ∧ (pollId ∉ object_prototype_keys)
  ∧ (2 ≤ length (options poll))%nat
  ∧ Forall (λ opt, trim opt ≠ "") (options poll)
  ∧ length (votes poll) = length (options poll)
  ∧ (∀ i, (i < length (options poll))%nat →
       ∃ n, votes poll !! i = Some (Num n) ∧ 0 ≤ n)
  ∧ question poll ≠ ""
  ∧ trim (question poll) = question poll.
Proof.
  intros Hs Hp.
  destruct (reachable_well_formed s pollId poll Hs Hp)
    as [Hid Hkey Hlen Hcounts Hopts Hnb Hq].
  repeat split; try done.
  - by eapply stored_key_not_inherited.
  - intros i Hi. apply is_count_lookup; [done|]. by rewrite Hlen.
  - by eapply stored_question_trimmed.
Qed.

Lemma stored_poll_invariants_witness :
  id example_poll = example_id
  ∧ (∃ now suffix, example_id = generatePollId now suffix)
  ∧ (example_id ∉ object_prototype_keys)
  ∧ (2 ≤ length (options example_poll))%nat
  ∧ Forall (λ opt, trim opt ≠ "") (options example_poll)
  ∧ length (votes example_poll) = length (options example_poll)
  ∧ (∀ i, (i < length (options example_poll))%nat →
       ∃ n, votes example_poll !! i = Some (Num n) ∧ 0 ≤ n)
  ∧ question example_poll ≠ ""
  ∧ trim (question example_poll) = question example_poll.
Proof.
  apply (stored_poll_invariants example_store example_id example_poll).
  - exact example_store_reachable.
  - exact example_store_lookup.
Defined.

(** ** One entry per voter *)

Lemma number_eqb_sym m n : number_eqb m n = number_eqb n m.
Proof.
  destruct m as [p| |], n as [q| |]; simpl; try done.
  destruct (Qeq_bool p q) eqn:Hpq, (Qeq_bool q p) eqn:Hqp; try done.
  - apply Qeq_bool_iff in Hpq. symmetry in Hpq. apply Qeq_bool_iff in Hpq.
    congruence.
  - apply Qeq_bool_iff in Hqp. symmetry in Hqp. apply Qeq_bool_iff in Hqp.
    congruence.
Qed.

Lemma same_value_zero_sym v w : same_value_zero v w = same_value_zero w v.
Proof.
  destruct v, w; simpl; try done.
  - by destruct b, b0.
  - apply number_eqb_sym.
  - apply String.eqb_sym.
Qed.

Lemma voters_has_false vs v w :
  voters_has vs v = false → w ∈ vs → same_value_zero v w = false.
Proof.
  unfold voters_has. intros Hhas Hw.
  destruct (same_value_zero v w) eqn:Hvw; [|done].
  rewrite <- Hhas. symmetry. apply existsb_exists. exists w.
  split; [by apply list_elem_of_In|done].
Qed.

(** X6.  In every state the server can be in, no two entries of the
    voters of a stored poll are the same value for the [Set]: an
    identity is recorded at most once per poll. *)
Theorem voters_distinct s pollId poll i j v w :
  reachable s →
  polls s !! pollId = Some poll →
  i ≠ j →
  voters poll !! i = Some v →
  voters poll !! j = Some w →
  same_value_zero v w = false.
Proof.
  intros Hs Hp.
  enough (∀ i j v w, (i < j)%nat → voters poll !! i = Some v →
                     voters poll !! j = Some w → same_value_zero w v = false)
    as Hlt.
  { intros Hij Hi Hj. destruct (decide (i < j)%nat).
    - rewrite same_value_zero_sym. by eapply Hlt.
    - eapply (Hlt j i); [lia|done..]. }
  clear i j v w. revert pollId poll Hp.
  apply (stored_poll_ind (λ _, True)
           (λ _ poll, ∀ i j v w, (i < j)%nat → voters poll !! i = Some v →
                        voters poll !! j = Some w → same_value_zero w v = false));
    [| | |exact Hs].
  - intros. by simplify_eq/=.
  - done.
  - intros pid poll n voterId ip _ IH _ _ _ Hfresh i j v w Hij.
    unfold record_vote. cbn [voters]. rewrite voters_add_fresh by done.
    intros Hi Hj. pose proof (lookup_lt_Some _ _ _ Hj) as Hlen.
    rewrite length_app in Hlen. simpl in Hlen.
    destruct (decide (j < length (voters poll))%nat) as [Hj'|Hj'].
    + rewrite lookup_app_l in Hi, Hj by lia. by apply (IH i j).
    + rewrite lookup_app_l in Hi by lia. rewrite lookup_app_r in Hj by lia.
      apply list_lookup_singleton_Some in Hj as [_ <-].
      eapply voters_has_false; [done|]. by eapply list_elem_of_lookup_2.
Qed.

Lemma voters_distinct_witness :
  same_value_zero (JStr "a") (JStr "b") = false.
Proof.
  apply (voters_distinct
           (run [example_create; Vote example_id (JInt 0) (JStr "a") "203.0.113.7";
                 Vote example_id (JInt 1) (JStr "b") "203.0.113.7"] empty_store)
           example_id
           (record_vote (record_vote example_poll (Fin (inject_Z 0)) (JStr "a"))
              (Fin (inject_Z 1)) (JStr "b"))
           0 1 (JStr "a") (JStr "b")).
  - apply (run_reachable_by _ _ empty_store); [|constructor].
    by repeat constructor.
  - vm_compute. reflexivity.
  - discriminate.
  - reflexivity.
  - reflexivity.
Defined.

(** ** Votes and voters *)

(** X7.  In every state the server can be in, the votes of a stored
    poll add up to a number that is at most the number of its voters:
    no request adds a vote without adding a voter. *)
Theorem votes_at_most_voters s pollId poll :
  reachable s →
  polls s !! pollId = Some poll →
  ∃ total, sum_votes poll = Num total
           ∧ 0 ≤ total ≤ Z.of_nat (length (voters poll)).
Proof.
  intros Hs Hp.
  enough (well_formed pollId poll
          ∧ ∃ total, sum_votes poll = Num total
                     ∧ 0 ≤ total ≤ Z.of_nat (length (voters poll))) as [_ ?]
    by done.
  revert pollId poll Hp.
  apply (stored_poll_ind (λ _, True)
           (λ pollId poll,
              well_formed pollId poll
              ∧ ∃ total, sum_votes poll = Num total
                         ∧ 0 ≤ total ≤ Z.of_nat (length (voters poll))));
    [| | |exact Hs].
  - intros text elems now suffix iso cl _ Hf Hlen Htext. split.
    + by eapply new_poll_well_formed.
    + exists 0. split; [apply totalVotes_new|done].
  - intros pid p [Hwf Ht]. split; [by apply set_closed_well_formed|done].
  - intros pid p n voterId ip _ [Hwf (t & Ht & Hrange)] _ Hlt Hge Hfresh. split.
    + by apply record_vote_well_formed.
    + destruct Hwf as [_ _ Hlen Hcounts _ _ _].
      unfold sum_votes, totalVotes, record_vote in *. cbn [votes voters].
      rewrite voters_add_fresh, length_app by done. simpl.
      destruct (array_key n) as [i|k] eqn:Hkey.
      * assert (i < length (votes p))%nat as Hi
          by (rewrite Hlen; by eapply array_key_in_range).
        destruct (is_count_lookup _ _ Hcounts Hi) as (m & Hm & _).
        rewrite (increment_at_in_range _ _ m) by done.
        rewrite (fold_counts_insert _ _ _ _ _ Hcounts Hm Ht).
        exists (t + 1). split; [done|lia].
      * exists t. split; [done|lia].
Qed.

Lemma votes_at_most_voters_witness :
  ∃ total, sum_votes example_poll = Num total
           ∧ 0 ≤ total ≤ Z.of_nat (length (voters example_poll)).
Proof.
  apply (votes_at_most_voters example_store example_id example_poll).
  - exact example_store_reachable.
  - exact example_store_lookup.
Defined.

(** ** The history of a poll *)

Lemma later_state_refl poll : later_state poll poll.
Proof. split; try done. intros i a Ha. exists a. split; [done|lia]. Qed.

Lemma later_state_trans p1 p2 p3 :
  later_state p1 p2 → later_state p2 p3 → later_state p1 p3.
Proof.
  intros [? ? ? ? ? ? Hc1 ?] [? ? ? ? ? ? Hc2 ?]. split; try congruence; auto.
  - by etrans.
  - intros i a Ha. destruct (Hc1 i a Ha) as (b & Hb & ?).
    destruct (Hc2 i b Hb) as (c & Hc & ?). exists c. split; [done|lia].
Qed.

Lemma later_state_closed poll : later_state poll (set_closed poll).
Proof. split; try done. intros i a Ha. exists a. split; [done|lia]. Qed.

Lemma later_state_vote pollId poll n uid :
  well_formed pollId poll →
  ge_length n (length (options poll)) = false →
  voters_has (voters poll) uid = false →
  later_state poll (record_vote poll n uid).
Proof.
  intros [_ _ Hlen Hcounts _ _ _] Hge Hfresh.
  split; try done; unfold record_vote; cbn [votes voters].
  - rewrite voters_add_fresh by done. by apply prefix_app_r.
  - destruct (array_key n) as [i|] eqn:Hi; [|done].
    apply increment_at_length; [done|].
    rewrite Hlen. by eapply array_key_in_range.
  - intros j a Ha. destruct (array_key n) as [i|] eqn:Hi;
      [|exists a; split; [done|lia]].
    assert (i < length (votes poll))%nat as Hi'
      by (rewrite Hlen; by eapply array_key_in_range).
    destruct (is_count_lookup _ _ Hcounts Hi') as (m & Hm & _).
    rewrite (increment_at_in_range _ _ m) by done.
    destruct (decide (i = j)) as [->|Hne].
    + rewrite list_lookup_insert_eq by done. simplify_eq.
      exists (a + 1). split; [done|lia].
    + rewrite list_lookup_insert_ne by done. exists a. split; [done|lia].
Qed.

Lemma later_state_step r s pollId poll :
  reachable s → polls s !! pollId = Some poll →
  r ≠ Delete pollId → created_id r ≠ Some pollId →
  ∃ after, polls (handle r s).1 !! pollId = Some after ∧ later_state poll after.
Proof.
  intros Hs Hp Hdel Hcr.
  pose proof (reachable_well_formed s pollId poll Hs Hp) as Hwf.
  pose proof (handle_poll_change r s pollId) as Hch.
  inversion Hch as [r' Heq|p Hp' Hst|p n voterId ip Hp' Hst Hlt Hge Hfresh| |
                    text elems now suffix iso cl Hid]; simplify_eq/=.
  - exists poll. split; [congruence|apply later_state_refl].
  - eexists. split; [done|apply later_state_closed].
  - eexists. split; [done|]. by eapply later_state_vote.
Qed.

(** X8.  As long as a stored poll is neither deleted nor replaced by
    a Create that generates its identifier again, it stays stored,
    and after any sequence of requests its identifier, question,
    options and creation time are the same, its voters are the
    earlier ones followed by the new ones, it has as many votes, none
    of which went down, and it is closed if it was. *)
Theorem poll_history rs s pollId poll :
  reachable s →
  polls s !! pollId = Some poll →
  Forall (λ r, r ≠ Delete pollId ∧ created_id r ≠ Some pollId) rs →
  ∃ after, polls (run rs s) !! pollId = Some after ∧ later_state poll after.
Proof.
  intros Hs Hp Hrs. revert s poll Hs Hp.
  induction Hrs as [|r rs [Hdel Hcr] _ IH]; intros s poll Hs Hp.
  - exists poll. split; [done|apply later_state_refl].
  - rewrite run_cons.
    destruct (later_state_step r s pollId poll Hs Hp Hdel Hcr)
      as (mid & Hmid & Hlater).
    destruct (IH (handle r s).1 mid) as (after & Hafter & Hlater');
      [by constructor|done|].
    exists after. split; [done|]. by eapply later_state_trans.
Qed.

Lemma poll_history_witness :
  ∃ after,
    polls (run [Vote example_id (JInt 2) JNull "203.0.113.7"; Close example_id]
             example_store) !! example_id = Some after
    ∧ later_state example_poll after.
Proof.
  apply (poll_history _ example_store example_id example_poll).
  - exact example_store_reachable.
  - exact example_store_lookup.
  - repeat constructor; discriminate.
Defined.

(** ** Property names of [Object.prototype] as poll identifiers *)

Lemma inherited_key_missing s key :
  reachable s → key ∈ object_prototype_keys → polls s !! key = None.
Proof.
  intros Hs Hkey. destruct (polls s !! key) as [poll|] eqn:Hp; [|done].
  by destruct (stored_key_not_inherited s key poll Hs Hp).
Qed.

(** X9.  A request that names a property of [Object.prototype] finds
    the inherited object instead of a poll.  While no Close has set a
    status on it: Get answers with a poll that has no field, Results
    and a Vote whose option index is a number that is not negative
    end in a 500 response, a Vote with any other option index is
    refused for its index, and Delete answers as if it had deleted a
    poll; none of them changes the store.  Close succeeds once,
    leaves the stored polls alone, and from then on Close and Vote
    find the object closed. *)
Theorem inherited_key_requests s key :
  reachable s →
  key ∈ object_prototype_keys →
  inherited_status s key = None →
  getPoll key s
  = (s, PollDetails {| view_id := None; view_question := None;
                       view_options := None; view_status := None;
                       view_createdAt := None |})
  ∧ getResults key s = (s, ServerError)
  ∧ (∀ n voterId ip, lt_zero n = false →
       vote key (JNum n) voterId ip s = (s, ServerError))
  ∧ (∀ optionIndex voterId ip,
       (∀ n, optionIndex = JNum n → lt_zero n = true) →
       vote key optionIndex voterId ip s = (s, InvalidOptionIndex))
  ∧ deletePoll key s = (s, PollDeleted key)
  ∧ let s1 := (closePoll key s).1 in
    closePoll key s = (s1, PollClosed key closed)
    ∧ polls s1 = polls s
    ∧ closePoll key s1 = (s1, AlreadyClosedError)
    ∧ ∀ optionIndex voterId ip,
        vote key optionIndex voterId ip s1 = (s1, ClosedError).
Proof.
  intros Hs Hkey Hopen.
  pose proof (inherited_key_missing s key Hs Hkey) as Hnone.
  pose proof (getPollOrError_inherited s key Hnone Hkey) as Hget.
  split; [|split; [|split; [|split; [|split]]]].
  - unfold getPoll. by rewrite Hget, Hopen.
  - unfold getResults. by rewrite Hget.
  - intros n voterId ip Hlt. unfold vote. rewrite Hget. simpl.
    by rewrite Hopen, Hlt.
  - intros optionIndex voterId ip Hneg. unfold vote. rewrite Hget. simpl.
    rewrite Hopen. simpl. destruct optionIndex as [| | |n| | |]; try done.
    by rewrite (Hneg n eq_refl).
  - by apply delete_inherited.
  - assert (closePoll key s
            = ({| polls := polls s; builtins_closed := {[key]} ∪ builtins_closed s |},
               PollClosed key closed)) as Hclose.
    { unfold closePoll. rewrite Hget. simpl. by rewrite Hopen. }
    cbv zeta. rewrite Hclose. simpl.
    set (s1 := {| polls := polls s; builtins_closed := {[key]} ∪ builtins_closed s |}).
    assert (getPollOrError s1 key = inr (Inherited key)) as Hget1
      by (by apply getPollOrError_inherited).
    assert (inherited_status s1 key = Some closed) as Hclosed.
    { unfold inherited_status. simpl.
      rewrite (bool_decide_eq_true_2 (key ∈ {[key]} ∪ builtins_closed s));
        [done|]. by apply elem_of_union_l, elem_of_singleton_2. }
    repeat split.
    + unfold closePoll. rewrite Hget1. simpl. by rewrite Hclosed.
    + intros optionIndex voterId ip. unfold vote. rewrite Hget1. simpl.
      by rewrite Hclosed.
Qed.

Lemma inherited_key_requests_witness :
  getPoll "toString" example_store
  = (example_store,
     PollDetails {| view_id := None; view_question := None;
                    view_options := None; view_status := None;
                    view_createdAt := None |})
  ∧ getResults "toString" example_store = (example_store, ServerError)
  ∧ (∀ n voterId ip, lt_zero n = false →
       vote "toString" (JNum n) voterId ip example_store
       = (example_store, ServerError))
  ∧ (∀ optionIndex voterId ip,
       (∀ n, optionIndex = JNum n → lt_zero n = true) →
       vote "toString" optionIndex voterId ip example_store
       = (example_store, InvalidOptionIndex))
  ∧ deletePoll "toString" example_store = (example_store, PollDeleted "toString")
  ∧ let s1 := (closePoll "toString" example_store).1 in
    closePoll "toString" example_store = (s1, PollClosed "toString" closed)
    ∧ polls s1 = polls example_store
    ∧ closePoll "toString" s1 = (s1, AlreadyClosedError)
    ∧ ∀ optionIndex voterId ip,
        vote "toString" optionIndex voterId ip s1 = (s1, ClosedError).
Proof.
  apply (inherited_key_requests example_store "toString").
  - exact example_store_reachable.
  - apply (bool_decide_unpack _). by vm_compute.
  - reflexivity.
Defined.

(** X10.  Once a Close has named [__proto__], the status it sets is
    the one every property of [Object.prototype] inherits: a Close
    or a Vote that names any of them finds it closed.  The stored
    polls keep their own status: the request changes none of them. *)
Theorem close_proto_closes_inherited s key :
  reachable s →
  key ∈ object_prototype_keys →
  let s1 := (closePoll "__proto__" s).1 in
  polls s1 = polls s
  ∧ closePoll key s1 = (s1, AlreadyClosedError)
  ∧ ∀ optionIndex voterId ip,
      vote key optionIndex voterId ip s1 = (s1, ClosedError).
Proof.
  intros Hs Hkey s1.
  assert ("__proto__" ∈ object_prototype_keys) as Hproto
    by (apply (bool_decide_unpack _); by vm_compute).
  pose proof (getPollOrError_inherited s "__proto__"
                (inherited_key_missing s _ Hs Hproto) Hproto) as Hget.
  assert (polls s1 = polls s ∧ "__proto__" ∈ builtins_closed s1) as [Hpolls Hin].
  { unfold s1, closePoll. rewrite Hget. simpl. unfold inherited_status.
    rewrite orb_diag. case_bool_decide as Hc; simpl; [done|].
    split; [done|]. by apply elem_of_union_l, elem_of_singleton_2. }
  assert (getPollOrError s1 key = inr (Inherited key)) as Hget1.
  { apply getPollOrError_inherited; [|done]. rewrite Hpolls.
    by apply inherited_key_missing. }
  assert (inherited_status s1 key = Some closed) as Hclosed.
  { unfold inherited_status.
    by rewrite (bool_decide_eq_true_2 ("__proto__" ∈ builtins_closed s1)),
      orb_true_r. }
  repeat split; [done| |].
  - unfold closePoll. rewrite Hget1. simpl. by rewrite Hclosed.
  - intros optionIndex voterId ip. unfold vote. rewrite Hget1. simpl.
    by rewrite Hclosed.
Qed.

Lemma close_proto_closes_inherited_witness :
  let s1 := (closePoll "__proto__" example_store).1 in
  polls s1 = polls example_store
  ∧ closePoll "constructor" s1 = (s1, AlreadyClosedError)
  ∧ ∀ optionIndex voterId ip,
      vote "constructor" optionIndex voterId ip s1 = (s1, ClosedError).
Proof.
  apply (close_proto_closes_inherited example_store "constructor").
  - exact example_store_reachable.
  - apply (bool_decide_unpack _). by vm_compute.
Defined.

(** ** Reading a poll after writing it *)

Lemma createPoll_valid text opts now suffix iso s :
  valid_create text opts →
  createPoll (JStr text) (JArr (JStr <$> opts)) now suffix iso s
  = (with_polls s
       (<[generatePollId now suffix :=
            new_poll (generatePollId now suffix) (trim text) (nonblank opts) iso]>
          (polls s)),
     PollCreated (generatePollId now suffix) (trim text) (nonblank opts) active).
Proof.
  intros [Hq Hn]. unfold createPoll.
  assert (text ≠ "") as Htext by (intros ->; by apply Hq).
  rewrite !truthy_JStr, !bool_decide_eq_true_2 by done. simpl.
  rewrite filter_trim_strings, length_fmap.
  pose proof (nonblank_length opts).
  rewrite (proj2 (Nat.ltb_ge (length opts) 2)) by lia.
  by rewrite (proj2 (Nat.ltb_ge (length (nonblank opts)) 2)) by lia.
Qed.

Lemma array_get_new (l : list string) i :
  (i < length l)%nat → array_get (map (λ _, Num 0) l) i = Some (Num 0).
Proof.
  intros Hi. unfold array_get. rewrite map_zero_replicate.
  by rewrite lookup_replicate_2.
Qed.

(** X11.  After a Create that succeeds, whatever the store held, a
    Get of the generated identifier answers with that identifier,
    the trimmed question, the options that were kept, the status
    active and the creation time, and Results answers with a total of
    0 and, for each option in order, 0 votes and the percentage 0. *)
Theorem create_then_read text opts now suffix iso s :
  valid_create text opts →
  let pollId := generatePollId now suffix in
  let s1 := (createPoll (JStr text) (JArr (JStr <$> opts)) now suffix iso s).1 in
  getPoll pollId s1
  = (s1, PollDetails {| view_id := Some pollId;
                        view_question := Some (trim text);
                        view_options := Some (nonblank opts);
                        view_status := Some active;
                        view_createdAt := Some iso |})
  ∧ getResults pollId s1
    = (s1, PollResults pollId (trim text) active (Num 0)
             ((λ opt, {| line_option := opt; line_votes := Some (Num 0);
                         line_percentage := PercentZero |}) <$> nonblank opts)
             iso).
Proof.
  intros Hvalid pollId s1. unfold s1. rewrite (createPoll_valid _ _ _ _ _ _ Hvalid).
  simpl. fold pollId.
  set (poll := new_poll pollId (trim text) (nonblank opts) iso).
  assert (getPollOrError (with_polls s (<[pollId := poll]> (polls s))) pollId
          = inr (Own poll)) as Hget.
  { apply getPollOrError_own. simpl. apply lookup_insert_eq. }
  split.
  - unfold getPoll. by rewrite Hget.
  - unfold getResults. rewrite Hget. simpl. rewrite totalVotes_new.
    do 2 f_equal. apply list_eq. intros i.
    rewrite list_lookup_imap, list_lookup_fmap.
    destruct (nonblank opts !! i) as [opt|] eqn:Hopt; [|done]. simpl.
    unfold result_line. simpl.
    by rewrite array_get_new by (by eapply lookup_lt_Some).
Qed.

Lemma create_then_read_witness :
  let pollId := generatePollId 1 "a" in
  let s1 :=
    (createPoll (JStr " Lunch? ") (JArr (JStr <$> ["Soup"; " "; "Salad"]))
       1 "a" "t" example_store).1 in
  getPoll pollId s1
  = (s1, PollDetails {| view_id := Some pollId;
                        view_question := Some (trim " Lunch? ");
                        view_options := Some (nonblank ["Soup"; " "; "Salad"]);
                        view_status := Some active;
                        view_createdAt := Some "t" |})
  ∧ getResults pollId s1
    = (s1, PollResults pollId (trim " Lunch? ") active (Num 0)
             ((λ opt, {| line_option := opt; line_votes := Some (Num 0);
                         line_percentage := PercentZero |})
                <$> nonblank ["Soup"; " "; "Salad"])
             "t").
Proof.
  apply (create_then_read " Lunch? " ["Soup"; " "; "Salad"] 1 "a" "t" example_store).
  split; [discriminate|]. vm_compute. lia.
Defined.

Lemma fold_counts_lower a acc t :
  Forall is_count a → fold_left add_entry a (Num acc) = Num t → acc ≤ t.
Proof.
  intros Ha. revert acc.
  induction Ha as [|e a (m & -> & Hm) _ IH]; intros acc; simpl.
  - intros [= <-]. lia.
  - intros Ht. apply IH in Ht. lia.
Qed.

(** X12.  After a vote that is accepted for the option index [i],
    Results shows one vote more in total and on line [i], whose
    percentage is computed from the new count and the new total, and
    the same votes on every other line. *)
Theorem vote_then_results s pollId poll i opt voterId ip n total :
  reachable s →
  polls s !! pollId = Some poll →
  status poll = active →
  options poll !! i = Some opt →
  voters_has (voters poll) (uniqueVoterId voterId ip) = false →
  votes poll !! i = Some (Num n) →
  sum_votes poll = Num total →
  let s1 := (vote pollId (JInt i) voterId ip s).1 in
  ∃ lines,
    getResults pollId s1
    = (s1, PollResults pollId (question poll) active (Num (total + 1)) lines
             (createdAt poll))
    ∧ lines !! i
      = Some {| line_option := opt; line_votes := Some (Num (n + 1));
                line_percentage := ToFixed1 (Some (Num (n + 1))) (total + 1) |}
    ∧ ∀ j line, j ≠ i → lines !! j = Some line →
        line_votes line = array_get (votes poll) j.
Proof.
  intros Hs Hp Hst Hopt Hfresh Hn Htotal s1.
  destruct (reachable_well_formed s pollId poll Hs Hp)
    as [_ _ Hlen Hcounts _ _ _].
  assert (i < length (options poll))%nat as Hi by (by eapply lookup_lt_Some).
  set (uid := uniqueVoterId voterId ip) in *.
  remember (record_vote poll (Fin (inject_Z (Z.of_nat i))) uid) as poll1
    eqn:Hpoll1.
  assert (votes poll1 = <[i := Num (n + 1)]> (votes poll)) as Hvotes.
  { rewrite Hpoll1. unfold record_vote. cbn [votes]. rewrite array_key_JInt.
    by apply increment_at_in_range. }
  assert (question poll1 = question poll ∧ status poll1 = active
          ∧ createdAt poll1 = createdAt poll ∧ options poll1 = options poll)
    as (Hq1 & Hst1 & Hc1 & Ho1) by (by rewrite Hpoll1).
  assert (s1 = with_polls s (<[pollId := poll1]> (polls s))) as ->.
  { unfold s1, JInt. rewrite (vote_accepted s pollId poll); try done.
    - by rewrite Hpoll1.
    - apply lt_zero_JInt.
    - rewrite ge_length_JInt. apply bool_decide_eq_false_2. lia. }
  assert (0 ≤ total) as Hpos.
  { unfold sum_votes, totalVotes in Htotal. by eapply fold_counts_lower. }
  assert (totalVotes (votes poll1) = Num (total + 1)) as Htotal1.
  { rewrite Hvotes. by apply fold_counts_insert. }
  eexists. split; [|split].
  - unfold getResults. rewrite (getPollOrError_own _ pollId poll1);
      [|simpl; apply lookup_insert_eq].
    by rewrite Htotal1, Hq1, Hst1, Hc1.
  - rewrite list_lookup_imap, Ho1, Hopt. simpl.
    unfold result_line, positive_total.
    rewrite (proj2 (Z.ltb_lt 0 (total + 1))) by lia.
    unfold array_get. rewrite Hvotes, list_lookup_insert_eq; [done|].
    by eapply lookup_lt_Some.
  - intros j line Hj. rewrite list_lookup_imap, Ho1.
    destruct (options poll !! j); [|done]. intros [= <-].
    unfold result_line, array_get. cbn [line_votes].
    by rewrite Hvotes, list_lookup_insert_ne.
Qed.

Lemma vote_then_results_witness :
  let s1 := (vote example_id (JInt 1) (JStr "voterA") "203.0.113.7" example_store).1 in
  ∃ lines,
    getResults example_id s1
    = (s1, PollResults example_id (question example_poll) active (Num (0 + 1)) lines
             (createdAt example_poll))
    ∧ lines !! 1%nat
      = Some {| line_option := "Blue"; line_votes := Some (Num (0 + 1));
                line_percentage := ToFixed1 (Some (Num (0 + 1))) (0 + 1) |}
    ∧ ∀ j line, j ≠ 1%nat → lines !! j = Some line →
        line_votes line = array_get (votes example_poll) j.
Proof.
  apply (vote_then_results example_store example_id example_poll 1 "Blue"
           (JStr "voterA") "203.0.113.7" 0 0).
  - exact example_store_reachable.
  - exact example_store_lookup.
  - reflexivity.
  - reflexivity.
  - reflexivity.
  - reflexivity.
  - reflexivity.
Defined.

(** ** The listing of all polls *)

Lemma listed_reachable s keys : listed s keys → reachable s.
Proof. induction 1; by constructor. Qed.

Lemma createPoll_cases q opts now suffix iso s :
  (∃ code message, createPoll q opts now suffix iso s = (s, Failure code message))
  ∨ (∃ poll text cleaned,
       createPoll q opts now suffix iso s
       = (with_polls s (<[generatePollId now suffix := poll]> (polls s)),
          PollCreated (generatePollId now suffix) text cleaned active)).
Proof.
  unfold createPoll. repeat case_match; try (left; by eexists _, _).
  right. by eexists _, _, _.
Qed.

Lemma deletePoll_cases pollId s :
  deletePoll pollId s = (s, NotFoundError)
  ∨ deletePoll pollId s
    = (with_polls s (delete pollId (polls s)), PollDeleted pollId).
Proof.
  unfold deletePoll, getPollOrError. destruct (polls_get s pollId); auto.
Qed.

(** Requests other than Create and Delete keep the keys of [polls]. *)
Lemma keys_kept r s k :
  created_id r = None → (∀ pollId, r ≠ Delete pollId) →
  is_Some (polls (handle r s).1 !! k) ↔ is_Some (polls s !! k).
Proof.
  intros Hcr Hdel. pose proof (handle_poll_change r s k) as Hch.
  inversion Hch as [r' Hr Heq|p Hp Hst Hr Heq|p n voterId ip Hp Hst Hlt Hge Hf Hr Heq|
                    Hr Heq|text elems now suffix iso cl Hid Hf Hlen Ht Hr Heq].
  - done.
  - rewrite Hp. split; eauto.
  - rewrite Hp. split; eauto.
  - by destruct (Hdel k).
  - subst r. discriminate Hcr.
Qed.

Lemma listed_keys s keys :
  listed s keys → NoDup keys ∧ ∀ k, k ∈ keys ↔ is_Some (polls s !! k).
Proof.
  induction 1 as [|r s keys Hl [Hnd Hkeys]].
  - split; [constructor|]. intros k. simpl. rewrite lookup_empty.
    split; [by intros ?%elem_of_nil|by intros []].
  - unfold keys_after.
    destruct r as [q opts now suffix iso|pid|pid optionIndex voterId ip|pid|pid|pid].
    + simpl. destruct (createPoll_cases q opts now suffix iso s)
        as [(code & message & ->)|(poll & text & cleaned & ->)]; simpl; [done|].
      case_bool_decide as Hin.
      * split; [done|]. intros k. rewrite lookup_insert_is_Some, Hkeys.
        destruct (decide (generatePollId now suffix = k)) as [<-|]; [|tauto].
        apply Hkeys in Hin. tauto.
      * split.
        -- apply NoDup_app. split; [done|]. split; [|apply NoDup_singleton].
           intros k Hk ->%list_elem_of_singleton. done.
        -- intros k. rewrite elem_of_app, list_elem_of_singleton,
             lookup_insert_is_Some, Hkeys.
           destruct (decide (generatePollId now suffix = k)) as [<-|];
             intuition congruence.
    + split; [done|]. intros k. by rewrite (keys_kept (Get pid) s k), Hkeys.
    + assert (∀ k, is_Some (polls (handle (Vote pid optionIndex voterId ip) s).1 !! k)
                   ↔ is_Some (polls s !! k)) as Hkept
        by (intros k; by apply keys_kept).
      simpl in *. destruct (vote pid optionIndex voterId ip s).2;
        (split; [done|]; intros k; by rewrite Hkept, Hkeys).
    + split; [done|]. intros k. by rewrite (keys_kept (Results pid) s k), Hkeys.
    + assert (∀ k, is_Some (polls (handle (Close pid) s).1 !! k)
                   ↔ is_Some (polls s !! k)) as Hkept
        by (intros k; by apply keys_kept).
      simpl in *. destruct (closePoll pid s).2;
        (split; [done|]; intros k; by rewrite Hkept, Hkeys).
    + simpl. destruct (deletePoll_cases pid s) as [-> | ->]; simpl; [done|].
      split; [by apply NoDup_filter|].
      intros k. rewrite list_elem_of_filter, lookup_delete_is_Some, Hkeys.
      split; intros [? ?]; split; done.
Qed.

Lemma omap_lookup_all (m : gmap string Poll) keys :
  (∀ k, k ∈ keys → is_Some (m !! k)) →
  Forall2 (λ k poll, m !! k = Some poll) keys (omap (λ k, m !! k) keys).
Proof.
  induction keys as [|k keys IH]; intros Hall; simpl; [constructor|].
  destruct (Hall k) as [poll Hp]; [by left|]. rewrite Hp.
  constructor; [done|]. apply IH. intros k' Hk'. apply Hall. by right.
Qed.

(** X13.  In every state the server can be in, the listing counts
    and shows each stored poll once, in the property order of
    [polls], which is the order in which the keys were added: for
    each one its identifier, question, status, creation time and the
    sum of its votes. *)
Theorem getAllPolls_lists_store s keys :
  listed s keys →
  let result := getAllPolls s keys in
  list_count result = size (polls s)
  ∧ list_count result = length (list_polls result)
  ∧ summary_id <$> list_polls result = keys
  ∧ NoDup keys
  ∧ (∀ k, k ∈ keys ↔ is_Some (polls s !! k))
  ∧ Forall2 (λ k summary,
               ∃ poll, polls s !! k = Some poll
                       ∧ summary = summarize poll
                       ∧ summary_totalVotes summary = sum_votes poll)
      keys (list_polls result).
Proof.
  intros Hl result. destruct (listed_keys s keys Hl) as [Hnd Hkeys].
  pose proof (listed_reachable s keys Hl) as Hs.
  pose proof (omap_lookup_all (polls s) keys (λ k, proj1 (Hkeys k))) as Hall.
  unfold result, getAllPolls. cbn [list_count list_polls].
  set (found := omap (λ k, polls s !! k) keys) in *.
  assert (length found = length keys) as Hlen
    by (symmetry; by eapply Forall2_length).
  split; [|split; [done|split; [|split; [done|split; [done|]]]]].
  - rewrite length_fmap, Hlen, <- size_dom.
    assert (dom (polls s) = list_to_set keys) as ->.
    { apply set_eq. intros k.
      by rewrite elem_of_dom, elem_of_list_to_set, Hkeys. }
    by rewrite size_list_to_set.
  - rewrite <- list_fmap_compose.
    assert (∀ ks fs, Forall2 (λ k poll, polls s !! k = Some poll) ks fs →
                     summary_id ∘ summarize <$> fs = ks) as Hids.
    { induction 1 as [|k poll ks fs Hp _ IH]; [done|].
      simpl. f_equal; [|done].
      by destruct (reachable_well_formed s k poll Hs Hp). }
    by apply Hids.
  - apply Forall2_fmap_r. eapply Forall2_impl; [done|].
    intros k poll Hp. by exists poll.
Qed.

Lemma getAllPolls_lists_store_witness :
  let result := getAllPolls example_store [example_id] in
  list_count result = size (polls example_store)
  ∧ list_count result = length (list_polls result)
  ∧ summary_id <$> list_polls result = [example_id]
  ∧ NoDup [example_id]
  ∧ (∀ k, k ∈ [example_id] ↔ is_Some (polls example_store !! k))
  ∧ Forall2 (λ k summary,
               ∃ poll, polls example_store !! k = Some poll
                       ∧ summary = summarize poll
                       ∧ summary_totalVotes summary = sum_votes poll)
      [example_id] (list_polls result).
Proof.
  apply (getAllPolls_lists_store example_store [example_id]).
  exact (listed_step example_create empty_store [] listed_start).
Defined.

Lemma omap_lookup_insert_fresh (m : gmap string Poll) pollId poll
    (keys : list string) :
  pollId ∉ keys →
  omap (λ k, <[pollId := poll]> m !! k) keys = omap (λ k, m !! k) keys.
Proof.
  induction keys as [|k keys IH]; [done|].
  intros [Hne Hnot]%not_elem_of_cons. simpl.
  rewrite lookup_insert_ne by done.
  destruct (m !! k); [f_equal|]; exact (IH Hnot).
Qed.

(** X14.  A Create that succeeds under an identifier that no stored
    poll has adds its poll at the end of the listing: the polls
    listed before are listed as before, in the same order, and the
    count goes up by one. *)
Theorem new_poll_listed_last s keys text opts now suffix iso :
  listed s keys →
  valid_create text opts →
  polls s !! generatePollId now suffix = None →
  let r := Create (JStr text) (JArr (JStr <$> opts)) now suffix iso in
  let before := getAllPolls s keys in
  let after := getAllPolls (handle r s).1 (keys_after r s keys) in
  listed (handle r s).1 (keys_after r s keys)
  ∧ list_polls after
    = list_polls before
      ++ [summarize (new_poll (generatePollId now suffix) (trim text)
                       (nonblank opts) iso)]
  ∧ list_count after = S (list_count before).
Proof.
  intros Hl Hvalid Hnone r before after.
  destruct (listed_keys s keys Hl) as [_ Hkeys].
  assert (generatePollId now suffix ∉ keys) as Hnot.
  { intros Hin%Hkeys. rewrite Hnone in Hin. by destruct Hin. }
  split; [by constructor|].
  assert (list_polls after
          = list_polls before
            ++ [summarize (new_poll (generatePollId now suffix) (trim text)
                             (nonblank opts) iso)]) as Heq.
  { unfold after, before, getAllPolls, keys_after, r. cbn [handle list_polls].
    rewrite (createPoll_valid _ _ _ _ _ _ Hvalid). cbn [fst snd polls with_polls].
    rewrite bool_decide_eq_false_2 by done.
    rewrite omap_app, omap_lookup_insert_fresh, fmap_app by done.
    simpl. by rewrite lookup_insert_eq. }
  split; [done|].
  assert (list_count after = length (list_polls after)) as -> by done.
  assert (list_count before = length (list_polls before)) as -> by done.
  rewrite Heq, length_app. simpl. lia.
Qed.

Lemma new_poll_listed_last_witness :
  let r := Create (JStr "Lunch?") (JArr (JStr <$> ["Soup"; "Salad"])) 1 "a" "t" in
  let before := getAllPolls example_store [example_id] in
  let after := getAllPolls (handle r example_store).1
                 (keys_after r example_store [example_id]) in
  listed (handle r example_store).1 (keys_after r example_store [example_id])
  ∧ list_polls after
    = list_polls before
      ++ [summarize (new_poll (generatePollId 1 "a") (trim "Lunch?")
                       (nonblank ["Soup"; "Salad"]) "t")]
  ∧ list_count after = S (list_count before).
Proof.
  apply (new_poll_listed_last example_store [example_id] "Lunch?"
           ["Soup"; "Salad"] 1 "a" "t").
  - exact (listed_step example_create empty_store [] listed_start).
  - split; [discriminate|]. vm_compute. lia.
  - vm_compute. reflexivity.
Defined.

(** ** The option index, again *)

(** X15.  On a stored poll that is active, a vote is refused for its
    option index exactly when the index is not a number, is negative,
    or is at least the number of options, whoever votes and whether
    or not that identity has voted; the store is then unchanged.  An
    integer of the range is never refused for its index. *)
Theorem invalid_index_exactly s pollId poll optionIndex voterId ip :
  polls s !! pollId = Some poll →
  status poll = active →
  (vote pollId optionIndex voterId ip s = (s, InvalidOptionIndex)
   ↔ ∀ n, optionIndex = JNum n →
          lt_zero n = true ∨ ge_length n (length (options poll)) = true)
  ∧ (valid_index optionIndex poll →
     (vote pollId optionIndex voterId ip s).2 ≠ InvalidOptionIndex).
Proof.
  intros Hp Hst.
  destruct (vote_invalid_iff s pollId poll optionIndex voterId ip Hp Hst)
    as [[Hnot Hinv] Hsame].
  split; [split|].
  - intros Heq n ->. rewrite Heq in Hnot. specialize (Hnot eq_refl).
    destruct (lt_zero n) eqn:Hlt; [by left|].
    destruct (ge_length n (length (options poll))) eqn:Hge; [by right|].
    destruct Hnot. by exists n.
  - intros Hbad.
    assert ((vote pollId optionIndex voterId ip s).2 = InvalidOptionIndex) as Hr.
    { apply Hinv. intros (n & -> & Hlt & Hge).
      destruct (Hbad n eq_refl); congruence. }
    specialize (Hsame Hr).
    destruct (vote pollId optionIndex voterId ip s). simpl in *. congruence.
  - intros Hvalid Hr. apply (Hnot Hr). by apply valid_index_passes.
Qed.

Lemma invalid_index_exactly_witness :
  (vote example_id (JStr "1") JNull "203.0.113.7" example_store
   = (example_store, InvalidOptionIndex)
   ↔ ∀ n, JStr "1" = JNum n →
          lt_zero n = true ∨ ge_length n (length (options example_poll)) = true)
  ∧ (valid_index (JStr "1") example_poll →
     (vote example_id (JStr "1") JNull "203.0.113.7" example_store).2
     ≠ InvalidOptionIndex).
Proof.
  apply (invalid_index_exactly example_store example_id example_poll).
  - exact example_store_lookup.
  - reflexivity.
Defined.

(** ** Sample instances *)

Lemma tally_integer_votes_witness : tally_matches example_poll.
Proof.
  apply (tally_integer_votes example_store example_id example_poll).
  - exact (reachable_step _ example_create empty_store I (reachable_start _)).
  - exact example_store_lookup.
Defined.

Lemma getResults_stored_witness :
  ∃ total lines,
    getResults example_id example_store
    = (example_store,
       PollResults example_id (question example_poll) (status example_poll)
         (Num total) lines (createdAt example_poll))
    ∧ sum_votes example_poll = Num total
    ∧ line_option <$> lines = options example_poll
    ∧ line_votes <$> lines = Some <$> votes example_poll
    ∧ Forall (λ l, line_percentage l
                   = if 0 <? total then ToFixed1 (line_votes l) total
                     else PercentZero) lines.
Proof.
  apply (getResults_stored example_store example_id example_poll).
  - exact example_store_reachable.
  - exact example_store_lookup.
Defined.

Lemma delete_stored_poll_witness :
  let s1 := (deletePoll example_id example_store).1 in
  deletePoll example_id example_store = (s1, PollDeleted example_id)
  ∧ polls s1 !! example_id = None
  ∧ (∀ k, k ≠ example_id → polls s1 !! k = polls example_store !! k)
  ∧ ∀ rs, Forall (λ r, created_id r ≠ Some example_id) rs →
      let s2 := run rs s1 in
      getPoll example_id s2 = (s2, NotFoundError)
      ∧ (∀ optionIndex voterId ip,
           vote example_id optionIndex voterId ip s2 = (s2, NotFoundError))
      ∧ getResults example_id s2 = (s2, NotFoundError)
      ∧ closePoll example_id s2 = (s2, NotFoundError)
      ∧ deletePoll example_id s2 = (s2, NotFoundError).
Proof.
  apply (delete_stored_poll example_store example_id example_poll).
  - exact example_store_reachable.
  - exact example_store_lookup.
Defined.

Lemma createPoll_stores_nonblank_witness :
  options example_poll = nonblank ["Red"; "Blue"; "Blue"; ""]
  ∧ Forall (λ opt, opt ≠ "" ∧ trim opt ≠ "") (options example_poll)
  ∧ options example_poll `sublist_of` ["Red"; "Blue"; "Blue"; ""].
Proof.
  apply (createPoll_stores_nonblank "Best color?" ["Red"; "Blue"; "Blue"; ""]
           1700000000000 "k3x9q2m1z" "2023-11-14T22:13:20.000Z" empty_store
           example_poll).
  - exact example_store_lookup.
  - reflexivity.
Defined.
